(** * Compositor supervisor (packages/renderer/src/compositor/compositor.ts)

    A shallow embedding of the host side of the compositor protocol:
    the incremental stdout parser ([processInput] and the stdout data
    handler), the dispatch of frames to the waiter map ([onMessage]), the
    child close handler and the public [executeCommand], [waitForDone]
    and [finishCommands].

    Data as the code has it: a Node [Buffer] is a list of byte values
    (Z in 0..255), a JS string is a list of UTF-16 code units (Z).
    Reading a Buffer out of range gives [undefined] ([nth_error] = None).
    The [while (true)] loops and the recursion of [processInput] are run
    on fuel: running out of fuel is the model of a loop that does not
    terminate. *)

From Stdlib Require Import ZArith List Bool String Ascii Lia Permutation.
Import ListNotations.
Open Scope Z_scope.
Set Warnings "-register-all".

(* ------------------------------------------------------------------ *)
(** ** Bytes and JS strings *)

Definition bytes := list Z.
Definition jsstr := list Z.

(** A Rocq string literal as the JS string (or Buffer) of its characters. *)
Definition js (s : string) : list Z :=
  map (fun a => Z.of_nat (nat_of_ascii a)) (list_ascii_of_string s).

Definition colon : Z := 58.  (* 0x3a, ':' *)

(** [const separator = Buffer.from('remotion_buffer:')] *)
Definition separator : bytes := js "remotion_buffer:".

Fixpoint is_prefix (p l : list Z) : bool :=
  match p, l with
  | [], _ => true
  | x :: p', y :: l' => Z.eqb x y && is_prefix p' l'
  | _ :: _, [] => false
  end.

Fixpoint index_of_from (needle hay : list Z) (i : nat) : option nat :=
  if is_prefix needle hay then Some i
  else match hay with
       | [] => None
       | _ :: hay' => index_of_from needle hay' (S i)
       end.

(** [buf.indexOf(needle)]; [None] is the [-1] of the source. *)
Definition index_of (hay needle : list Z) : option nat :=
  index_of_from needle hay 0.

(** [buf.subarray(start, end)] on integer arguments in range. *)
Definition subarray (buf : bytes) (start stop : nat) : bytes :=
  firstn (stop - start) (skipn start buf).

(** [String.fromCharCode(buf[i])]: a byte gives its code unit, and
    [undefined] (out of range) converts to [NaN], that is to "\u0000". *)
Definition fromCharCode (d : option Z) : jsstr :=
  match d with Some b => [b] | None => [0] end.

(* ------------------------------------------------------------------ *)
(** ** [Number(string)] *)

(** The result of [Number(s)] as far as the parser needs it: an integer
    that is exactly representable, [NaN], or another value (a fraction,
    an exponent, a sign, hexadecimal, Infinity, a large integer) that this
    development does not model. *)
Inductive jsnum := NumInt (z : Z) | NumNaN | NumOther.

(** StrWhiteSpaceChar of ECMAScript: WhiteSpace and LineTerminator. *)
Definition is_js_space (c : Z) : bool :=
  existsb (Z.eqb c) [9; 10; 11; 12; 13; 32; 160; 5760; 8232; 8233; 8239;
                     8287; 12288; 65279]
  || ((8192 <=? c) && (c <=? 8202)).

Fixpoint drop_space (s : jsstr) : jsstr :=
  match s with
  | c :: s' => if is_js_space c then drop_space s' else s
  | [] => []
  end.

Definition trim (s : jsstr) : jsstr := rev (drop_space (rev (drop_space s))).

Definition is_digit (c : Z) : bool := (48 <=? c) && (c <=? 57).

Fixpoint decimal_value (acc : Z) (s : jsstr) : Z :=
  match s with
  | [] => acc
  | c :: s' => decimal_value (10 * acc + (c - 48)) s'
  end.

(** A StrNumericLiteral starts (after white space) with a sign, a digit,
    a dot or the I of Infinity; any other first character gives [NaN]. *)
Definition may_start_number (c : Z) : bool :=
  existsb (Z.eqb c) [43; 45; 46; 73] || is_digit c.

Definition js_Number (s : jsstr) : jsnum :=
  match trim s with
  | [] => NumInt 0
  | (c :: _) as t =>
      if forallb is_digit t then
        let v := decimal_value 0 t in
        if v <? 2 ^ 53 then NumInt v else NumOther
      else if may_start_number c then NumOther
      else NumNaN
  end.

(* ------------------------------------------------------------------ *)
(** ** [buf.toString('utf8')] *)

(** The WHATWG UTF-8 decoder, with U+FFFD for each maximal ill-formed
    subsequence, as Node decodes a Buffer. Code points above U+FFFF
    become surrogate pairs in the JS string. *)
Definition utf16_of_code_point (cp : Z) : jsstr :=
  if cp <? 65536 then [cp]
  else let c := cp - 65536 in
       [55296 + Z.shiftr c 10; 56320 + Z.land c 1023].

Definition replacement : Z := 65533.

(** Decoder state when a lead byte has been read: bytes still needed,
    code point so far, and the bounds of the next continuation byte. *)
Record utf8_pending := { need : nat; cp : Z; lower : Z; upper : Z }.

Definition utf8_lead (b : Z) : (jsstr * option utf8_pending) :=
  if b <=? 127 then ([b], None)
  else if (194 <=? b) && (b <=? 223) then
    ([], Some {| need := 1; cp := Z.land b 31; lower := 128; upper := 191 |})
  else if (224 <=? b) && (b <=? 239) then
    ([], Some {| need := 2; cp := Z.land b 15;
                 lower := if b =? 224 then 160 else 128;
                 upper := if b =? 237 then 159 else 191 |})
  else if (240 <=? b) && (b <=? 244) then
    ([], Some {| need := 3; cp := Z.land b 7;
                 lower := if b =? 240 then 144 else 128;
                 upper := if b =? 244 then 143 else 191 |})
  else ([replacement], None).

Fixpoint utf8_go (st : option utf8_pending) (bs : bytes) : jsstr :=
  match bs with
  | [] => match st with None => [] | Some _ => [replacement] end
  | b :: bs' =>
      match st with
      | None => let (out, st') := utf8_lead b in out ++ utf8_go st' bs'
      | Some p =>
          if (lower p <=? b) && (b <=? upper p) then
            let c := Z.lor (Z.shiftl (cp p) 6) (Z.land b 63) in
            match need p with
            | 1%nat => utf16_of_code_point c ++ utf8_go None bs'
            | n =>
                utf8_go (Some {| need := pred n; cp := c;
                                 lower := 128; upper := 191 |}) bs'
            end
          else
            (* the byte is not consumed: it is processed again from the
               start state *)
            let (out, st') := utf8_lead b in
            replacement :: out ++ utf8_go st' bs'
      end
  end.

Definition utf8_decode (bs : bytes) : jsstr := utf8_go None bs.

Example utf8_decode_ascii : utf8_decode (js "foo") = js "foo".
Proof. reflexivity. Qed.

Example utf8_decode_two_byte : utf8_decode [195; 169] = [233].
Proof. reflexivity. Qed.

Example utf8_decode_invalid : utf8_decode [255; 102] = [65533; 102].
Proof. reflexivity. Qed.

Example utf8_decode_truncated : utf8_decode [226; 130; 102] = [65533; 102].
Proof. reflexivity. Qed.

Example utf8_decode_astral : utf8_decode [240; 159; 152; 128] = [55357; 56832].
Proof. reflexivity. Qed.

Example js_Number_digits : js_Number (js "123") = NumInt 123.
Proof. reflexivity. Qed.

Example js_Number_empty : js_Number [] = NumInt 0.
Proof. reflexivity. Qed.

Example js_Number_letters : js_Number (js "abc") = NumNaN.
Proof. reflexivity. Qed.

(** Decimal digits of a non-negative integer, as [String(n)] prints it.
    The fuel is the bit length of [n], more than its number of digits. *)
Fixpoint digits_aux (fuel : nat) (n : Z) (acc : jsstr) : jsstr :=
  match fuel with
  | O => acc
  | S f =>
      if n <? 10 then (48 + n) :: acc
      else digits_aux f (n / 10) ((48 + n mod 10) :: acc)
  end.

Definition decimal_string (n : Z) : jsstr :=
  digits_aux (S (Z.to_nat (Z.log2 n))) n [].

(** [Number.prototype.toString] on an exactly representable integer. *)
Definition number_to_string (z : Z) : jsstr :=
  if z <? 0 then 45 :: decimal_string (- z) else decimal_string z.

Example decimal_string_0 : decimal_string 0 = js "0".
Proof. reflexivity. Qed.

Example decimal_string_1024 : decimal_string 1024 = js "1024".
Proof. reflexivity. Qed.

(* ------------------------------------------------------------------ *)
(** ** [JSON.parse] *)

(** JSON values. Numbers are kept only when they are integers that a
    double holds exactly; other numbers make the parse [PUnsup]. Object
    members keep their order and duplicates (a later member wins on
    lookup, as in [JSON.parse]). *)
Inductive json :=
| JNull
| JBool (b : bool)
| JNum (z : Z)
| JStr (s : jsstr)
| JArr (l : list json)
| JObj (kvs : list (jsstr * json)).

(** Result of a parser: a value and the rest of the input, a
    [SyntaxError], or an input outside of the modelled subset. *)
Inductive presult (A : Type) :=
| POk (a : A) (rest : jsstr)
| PErr
| PUnsup.
Arguments POk {A} a rest.
Arguments PErr {A}.
Arguments PUnsup {A}.

Definition is_json_space (c : Z) : bool :=
  (c =? 9) || (c =? 10) || (c =? 13) || (c =? 32).

Fixpoint skip_ws (s : jsstr) : jsstr :=
  match s with
  | c :: s' => if is_json_space c then skip_ws s' else s
  | [] => []
  end.

Definition hex_value (c : Z) : option Z :=
  if is_digit c then Some (c - 48)
  else if (65 <=? c) && (c <=? 70) then Some (c - 55)
  else if (97 <=? c) && (c <=? 102) then Some (c - 87)
  else None.

Definition hex4 (a b c d : Z) : option Z :=
  match hex_value a, hex_value b, hex_value c, hex_value d with
  | Some x, Some y, Some z, Some w => Some (((x * 16 + y) * 16 + z) * 16 + w)
  | _, _, _, _ => None
  end.

(** The single-character escapes of JSON strings. *)
Definition simple_escape (e : Z) : option Z :=
  if (e =? 34) || (e =? 92) || (e =? 47) then Some e
  else if e =? 98 then Some 8
  else if e =? 102 then Some 12
  else if e =? 110 then Some 10
  else if e =? 114 then Some 13
  else if e =? 116 then Some 9
  else None.

(** The body of a string literal, after its opening quote. *)
Fixpoint string_body (s : jsstr) (acc : jsstr) : presult jsstr :=
  match s with
  | [] => PErr
  | c :: s1 =>
      if c =? 34 then POk acc s1
      else if c =? 92 then
        match s1 with
        | [] => PErr
        | e :: s2 =>
            if e =? 117 then
              match s2 with
              | h1 :: h2 :: h3 :: h4 :: s3 =>
                  match hex4 h1 h2 h3 h4 with
                  | Some v => string_body s3 (acc ++ [v])
                  | None => PErr
                  end
              | _ => PErr
              end
            else match simple_escape e with
                 | Some v => string_body s2 (acc ++ [v])
                 | None => PErr
                 end
        end
      else if c <? 32 then PErr
      else string_body s1 (acc ++ [c])
  end.

Fixpoint span_digits (s : jsstr) : jsstr * jsstr :=
  match s with
  | c :: s' =>
      if is_digit c then let (ds, r) := span_digits s' in (c :: ds, r)
      else ([], s)
  | [] => ([], [])
  end.

(** A number literal: [-? (0 | [1-9][0-9]* ) (. [0-9]+)? ([eE] [+-]? [0-9]+)?]. *)
Definition parse_number (s : jsstr) : presult json :=
  let '(neg, s1) :=
    match s with 45 :: s' => (true, s') | _ => (false, s) end in
  let '(ds, s2) := span_digits s1 in
  match ds with
  | [] => PErr
  | d :: ds' =>
      if (d =? 48) && negb (Nat.eqb (List.length ds') 0) then PErr else
      let '(frac, s3) :=
        match s2 with
        | 46 :: r => let '(fs, r') := span_digits r in
                     (Some fs, r')
        | _ => (None, s2)
        end in
      let '(expo, s4) :=
        match s3 with
        | e :: r =>
            if (e =? 101) || (e =? 69) then
              let r1 := match r with
                        | c :: r' => if (c =? 43) || (c =? 45) then r' else r
                        | [] => r
                        end in
              let '(es, r2) := span_digits r1 in (Some es, r2)
            else (None, s3)
        | [] => (None, s3)
        end in
      match frac, expo with
      | Some [], _ | _, Some [] => PErr
      | Some _, _ | _, Some _ => PUnsup
      | None, None =>
          let v := decimal_value 0 ds in
          if v <? 2 ^ 53 then POk (JNum (if neg then - v else v)) s4
          else PUnsup
      end
  end.

Example parse_number_int : parse_number (js "-42,") = POk (JNum (-42)) (js ",").
Proof. reflexivity. Qed.

Definition starts_with (p s : jsstr) : bool := is_prefix p s.

(** JSON values, arrays and objects; [fuel] bounds the nesting and the
    number of elements and is never the limiting factor at the fuel
    [json_parse] gives (running out is reported as [PUnsup]). *)
Fixpoint parse_value (fuel : nat) (s0 : jsstr) : presult json :=
  match fuel with
  | O => PUnsup
  | S f =>
      let s := skip_ws s0 in
      match s with
      | [] => PErr
      | c :: s1 =>
          if c =? 123 then
            match skip_ws s1 with
            | c' :: r => if c' =? 125 then POk (JObj []) r
                         else parse_members f (skip_ws s1) []
            | [] => PErr
            end
          else if c =? 91 then
            match skip_ws s1 with
            | c' :: r => if c' =? 93 then POk (JArr []) r
                         else parse_elements f (skip_ws s1) []
            | [] => PErr
            end
          else if c =? 34 then
            match string_body s1 [] with
            | POk str r => POk (JStr str) r
            | PErr => PErr
            | PUnsup => PUnsup
            end
          else if starts_with (js "true") s then POk (JBool true) (skipn 4 s)
          else if starts_with (js "false") s then POk (JBool false) (skipn 5 s)
          else if starts_with (js "null") s then POk JNull (skipn 4 s)
          else if (c =? 45) || is_digit c then parse_number s
          else PErr
      end
  end
with parse_elements (fuel : nat) (s : jsstr) (acc : list json)
  : presult json :=
  match fuel with
  | O => PUnsup
  | S f =>
      match parse_value f s with
      | POk v r =>
          match skip_ws r with
          | c :: r' =>
              if c =? 44 then parse_elements f r' (acc ++ [v])
              else if c =? 93 then POk (JArr (acc ++ [v])) r'
              else PErr
          | [] => PErr
          end
      | PErr => PErr
      | PUnsup => PUnsup
      end
  end
with parse_members (fuel : nat) (s : jsstr) (acc : list (jsstr * json))
  : presult json :=
  match fuel with
  | O => PUnsup
  | S f =>
      match skip_ws s with
      | c :: s1 =>
          if c =? 34 then
            match string_body s1 [] with
            | POk k r =>
                match skip_ws r with
                | c' :: r' =>
                    if c' =? 58 then
                      match parse_value f r' with
                      | POk v r2 =>
                          match skip_ws r2 with
                          | c2 :: r3 =>
                              if c2 =? 44 then parse_members f r3 (acc ++ [(k, v)])
                              else if c2 =? 125 then POk (JObj (acc ++ [(k, v)])) r3
                              else PErr
                          | [] => PErr
                          end
                      | PErr => PErr
                      | PUnsup => PUnsup
                      end
                    else PErr
                | [] => PErr
                end
            | PErr => PErr
            | PUnsup => PUnsup
            end
          else PErr
      | [] => PErr
      end
  end.

(** Result of [JSON.parse(text)]. *)
Inductive parse_outcome :=
| Parsed (v : json)
| SyntaxError
| ParseUnmodelled.

Definition json_parse (text : jsstr) : parse_outcome :=
  match parse_value (S (2 * List.length text)) text with
  | POk v rest => match skip_ws rest with [] => Parsed v | _ => SyntaxError end
  | PErr => SyntaxError
  | PUnsup => ParseUnmodelled
  end.

Fixpoint assoc_last (k : jsstr) (kvs : list (jsstr * json)) : option json :=
  match kvs with
  | [] => None
  | (k', v) :: kvs' =>
      match assoc_last k kvs' with
      | Some w => Some w
      | None => if list_eq_dec Z.eq_dec k k' then Some v else None
      end
  end.

(** Property read [v.k] on a parsed value: [None] is [undefined]. Only
    objects have own properties named like the payload's fields; the
    prototypes of arrays, strings, numbers and booleans have no property
    [error] or [backtrace]. Reading a property of [null] throws, which
    the caller handles. *)
Definition json_get (v : json) (k : jsstr) : option json :=
  match v with
  | JObj kvs => assoc_last k kvs
  | _ => None
  end.

Definition has_key (k : jsstr) (kvs : list (jsstr * json)) : bool :=
  existsb (fun kv => if list_eq_dec Z.eq_dec k (fst kv) then true else false) kvs.

(** [ToString] as a template literal applies it; [None] is a thrown
    [TypeError]. An object converts to "[object Object]" unless it has an
    own (non-callable) [toString] member, in which case [ToPrimitive]
    finds no callable method that gives a primitive and throws. An array
    is joined with commas, [null] elements giving the empty string. *)
Fixpoint to_js_string (v : json) : option jsstr :=
  match v with
  | JNull => Some (js "null")
  | JBool true => Some (js "true")
  | JBool false => Some (js "false")
  | JNum z => Some (number_to_string z)
  | JStr s => Some s
  | JObj kvs =>
      if has_key (js "toString") kvs then None else Some (js "[object Object]")
  | JArr l =>
      let fix join (l : list json) : option jsstr :=
        match l with
        | [] => Some []
        | x :: l' =>
            let ex := match x with JNull => Some [] | _ => to_js_string x end in
            match ex, l' with
            | Some a, [] => Some a
            | Some a, _ :: _ =>
                match join l' with Some b => Some (a ++ [44] ++ b) | None => None end
            | None, _ => None
            end
        end in
      join l
  end.

(** [`${x}`] where [x] may be [undefined]. *)
Definition template_string (x : option json) : option jsstr :=
  match x with None => Some (js "undefined") | Some v => to_js_string v end.

(** JSON text written with single quotes in Rocq string literals. *)
Definition jsq (s : string) : jsstr :=
  map (fun c => if c =? 39 then 34 else c) (js s).

Example json_parse_error_payload :
  json_parse (jsq "{'error':'bad','backtrace':'at foo'}")
  = Parsed (JObj [(js "error", JStr (js "bad")); (js "backtrace", JStr (js "at foo"))]).
Proof. reflexivity. Qed.

Example json_parse_garbage : json_parse (js "not json") = SyntaxError.
Proof. reflexivity. Qed.

Example json_parse_nested :
  json_parse (jsq " [1, {'a': [true, null]}, 'x\n'] ")
  = Parsed (JArr [JNum 1; JObj [(js "a", JArr [JBool true; JNull])];
                  JStr (js "x" ++ [10])]).
Proof. reflexivity. Qed.

(* ------------------------------------------------------------------ *)
(** ** The supervisor state *)

(** Promises handed out by [executeCommand] ([PCmd]) and by
    [waitForDone] ([PWait]), numbered in creation order. *)
Inductive promise := PCmd (n : nat) | PWait (n : nat).

Definition promise_eqb (p q : promise) : bool :=
  match p, q with
  | PCmd a, PCmd b => Nat.eqb a b
  | PWait a, PWait b => Nat.eqb a b
  | _, _ => false
  end.

(** A call of a promise's [resolve] or [reject] function made by the code.
    [waitForDone]'s promise is resolved with [undefined] ([None]). *)
Inductive settlement :=
| Resolve (p : promise) (v : option bytes)
| Reject (p : promise) (message : jsstr).

Definition settled_promise (s : settlement) : promise :=
  match s with Resolve p _ => p | Reject p _ => p end.

Inductive running_status :=
| Running
| QuitWithError (error : jsstr)
| QuitWithoutError.

(** Lines written to the child's stdin. The request is kept as its
    fields; its JSON serialisation is not modelled. *)
Inductive stdin_line :=
| Request (nonce : jsstr) (command : jsstr) (params : json)
| EOFLine.

(** [const waiters = new Map<string, Waiter>()]: a JS Map, as an
    association list in insertion order with unique keys. *)
Definition waiter_map := list (jsstr * promise).

Definition key_eqb (a b : jsstr) : bool :=
  if list_eq_dec Z.eq_dec a b then true else false.

Definition map_has (k : jsstr) (m : waiter_map) : bool :=
  existsb (fun kv => key_eqb k (fst kv)) m.

Fixpoint map_get (k : jsstr) (m : waiter_map) : option promise :=
  match m with
  | [] => None
  | (k', v) :: m' => if key_eqb k k' then Some v else map_get k m'
  end.

(** [Map.prototype.set]: an existing key keeps its place. *)
Fixpoint map_set (k : jsstr) (v : promise) (m : waiter_map) : waiter_map :=
  match m with
  | [] => [(k, v)]
  | (k', v') :: m' =>
      if key_eqb k k' then (k', v) :: m' else (k', v') :: map_set k v m'
  end.

Fixpoint map_delete (k : jsstr) (m : waiter_map) : waiter_map :=
  match m with
  | [] => []
  | (k', v') :: m' => if key_eqb k k' then m' else (k', v') :: map_delete k m'
  end.

Definition map_values (m : waiter_map) : list promise := map snd m.

(** The closure variables of [startCompositor]. [done_waiter] stands for
    the pair of variables [resolve] / [reject], always assigned together
    from one promise. [settlements], [verbose_log] and [stdin] record
    what the code does to the outside world, in order. *)
Record state := {
  outputBuffer : bytes;
  unprocessedBuffers : list bytes;
  missingData : option Z;
  waiters : waiter_map;
  runningStatus : running_status;
  stderrChunks : list bytes;
  done_waiter : option promise;
  next_id : nat;
  settlements : list settlement;
  verbose_log : list jsstr;
  stdin : list stdin_line
}.

(** Outcome of running a handler: a final state, a run that does not
    come back (an endless loop, or a recursion without end that
    exhausts the stack), or an input outside of the modelled subset. *)
Inductive outcome :=
| Done (st : state)
| Diverges
| Unmodelled.

Definition initial_state : state := {|
  outputBuffer := [];
  unprocessedBuffers := [];
  missingData := None;
  waiters := [];
  runningStatus := Running;
  stderrChunks := [];
  done_waiter := None;
  next_id := 0;
  settlements := [];
  verbose_log := [];
  stdin := []
|}.

Definition set_outputBuffer (b : bytes) (st : state) : state :=
  {| outputBuffer := b; unprocessedBuffers := unprocessedBuffers st;
     missingData := missingData st; waiters := waiters st;
     runningStatus := runningStatus st; stderrChunks := stderrChunks st;
     done_waiter := done_waiter st; next_id := next_id st;
     settlements := settlements st; verbose_log := verbose_log st;
     stdin := stdin st |}.

Definition set_unprocessed (u : list bytes) (st : state) : state :=
  {| outputBuffer := outputBuffer st; unprocessedBuffers := u;
     missingData := missingData st; waiters := waiters st;
     runningStatus := runningStatus st; stderrChunks := stderrChunks st;
     done_waiter := done_waiter st; next_id := next_id st;
     settlements := settlements st; verbose_log := verbose_log st;
     stdin := stdin st |}.

Definition set_missingData (m : option Z) (st : state) : state :=
  {| outputBuffer := outputBuffer st; unprocessedBuffers := unprocessedBuffers st;
     missingData := m; waiters := waiters st;
     runningStatus := runningStatus st; stderrChunks := stderrChunks st;
     done_waiter := done_waiter st; next_id := next_id st;
     settlements := settlements st; verbose_log := verbose_log st;
     stdin := stdin st |}.

Definition set_waiters (w : waiter_map) (st : state) : state :=
  {| outputBuffer := outputBuffer st; unprocessedBuffers := unprocessedBuffers st;
     missingData := missingData st; waiters := w;
     runningStatus := runningStatus st; stderrChunks := stderrChunks st;
     done_waiter := done_waiter st; next_id := next_id st;
     settlements := settlements st; verbose_log := verbose_log st;
     stdin := stdin st |}.

Definition set_runningStatus (r : running_status) (st : state) : state :=
  {| outputBuffer := outputBuffer st; unprocessedBuffers := unprocessedBuffers st;
     missingData := missingData st; waiters := waiters st;
     runningStatus := r; stderrChunks := stderrChunks st;
     done_waiter := done_waiter st; next_id := next_id st;
     settlements := settlements st; verbose_log := verbose_log st;
     stdin := stdin st |}.

Definition set_stderrChunks (c : list bytes) (st : state) : state :=
  {| outputBuffer := outputBuffer st; unprocessedBuffers := unprocessedBuffers st;
     missingData := missingData st; waiters := waiters st;
     runningStatus := runningStatus st; stderrChunks := c;
     done_waiter := done_waiter st; next_id := next_id st;
     settlements := settlements st; verbose_log := verbose_log st;
     stdin := stdin st |}.

Definition set_done_waiter (d : option promise) (st : state) : state :=
  {| outputBuffer := outputBuffer st; unprocessedBuffers := unprocessedBuffers st;
     missingData := missingData st; waiters := waiters st;
     runningStatus := runningStatus st; stderrChunks := stderrChunks st;
     done_waiter := d; next_id := next_id st;
     settlements := settlements st; verbose_log := verbose_log st;
     stdin := stdin st |}.

(** A fresh promise: its number, and the state with the counter bumped. *)
Definition fresh_id (st : state) : nat * state :=
  (next_id st,
   {| outputBuffer := outputBuffer st; unprocessedBuffers := unprocessedBuffers st;
      missingData := missingData st; waiters := waiters st;
      runningStatus := runningStatus st; stderrChunks := stderrChunks st;
      done_waiter := done_waiter st; next_id := S (next_id st);
      settlements := settlements st; verbose_log := verbose_log st;
      stdin := stdin st |}).

Definition settle (s : settlement) (st : state) : state :=
  {| outputBuffer := outputBuffer st; unprocessedBuffers := unprocessedBuffers st;
     missingData := missingData st; waiters := waiters st;
     runningStatus := runningStatus st; stderrChunks := stderrChunks st;
     done_waiter := done_waiter st; next_id := next_id st;
     settlements := settlements st ++ [s]; verbose_log := verbose_log st;
     stdin := stdin st |}.

Definition log_verbose (msg : jsstr) (st : state) : state :=
  {| outputBuffer := outputBuffer st; unprocessedBuffers := unprocessedBuffers st;
     missingData := missingData st; waiters := waiters st;
     runningStatus := runningStatus st; stderrChunks := stderrChunks st;
     done_waiter := done_waiter st; next_id := next_id st;
     settlements := settlements st; verbose_log := verbose_log st ++ [msg];
     stdin := stdin st |}.

Definition write_stdin (l : stdin_line) (st : state) : state :=
  {| outputBuffer := outputBuffer st; unprocessedBuffers := unprocessedBuffers st;
     missingData := missingData st; waiters := waiters st;
     runningStatus := runningStatus st; stderrChunks := stderrChunks st;
     done_waiter := done_waiter st; next_id := next_id st;
     settlements := settlements st; verbose_log := verbose_log st;
     stdin := stdin st ++ [l] |}.

(* ------------------------------------------------------------------ *)
(** ** [onMessage] *)

Inductive status_type := StatusSuccess | StatusError.

(** The message of the [Error] a waiter is rejected with on an error
    frame: the [try] block, or the [catch] block when [JSON.parse] throws
    or reading the fields of its result throws. [None]: a payload outside
    of the modelled JSON subset. *)
Definition error_frame_message (data : bytes) : option jsstr :=
  let text := utf8_decode data in
  match json_parse text with
  | Parsed JNull => Some text
  | Parsed parsed =>
      match template_string (json_get parsed (js "error")),
            template_string (json_get parsed (js "backtrace")) with
      | Some e, Some b => Some (js "Compositor error: " ++ e ++ [10] ++ b)
      | _, _ => Some text
      end
  | SyntaxError => Some text
  | ParseUnmodelled => None
  end.

Definition onMessage (statusType : status_type) (nonce : jsstr) (data : bytes)
    (st : state) : outcome :=
  let st1 :=
    if key_eqb nonce (js "0") then log_verbose (utf8_decode data) st else st in
  if map_has nonce (waiters st1) then
    match map_get nonce (waiters st1) with
    | None => Unmodelled   (* unreachable: [has] held *)
    | Some w =>
        let settled :=
          match statusType with
          | StatusError =>
              match error_frame_message data with
              | Some msg => Some (settle (Reject w msg) st1)
              | None => None
              end
          | StatusSuccess => Some (settle (Resolve w (Some data)) st1)
          end in
        match settled with
        | Some st2 => Done (set_waiters (map_delete nonce (waiters st2)) st2)
        | None => Unmodelled
        end
    end
  else Done st1.

(* ------------------------------------------------------------------ *)
(** ** [processInput] *)

(** One of the [while (true)] loops reading a header field from
    [separatorIndex]: the index of the terminating colon and the field
    read. A read past the end of the buffer gives [undefined], which is
    never [0x3a], so the loop only stops at a colon; [None] is running
    out of fuel. *)
Fixpoint read_field (fuel : nat) (buf : bytes) (i : nat) (acc : jsstr)
  : option (nat * jsstr) :=
  match fuel with
  | O => None
  | S f =>
      let nextDigit := nth_error buf i in
      if match nextDigit with Some d => Z.eqb d colon | None => false end
      then Some (i, acc)
      else read_field f buf (S i) (acc ++ fromCharCode nextDigit)
  end.

Definition lengthNat (n : Z) : nat := Z.to_nat n.

(** [status === 1 ? 'error' : 'success'] on [Number(statusString)]. *)
Definition status_type_of (n : jsnum) : option status_type :=
  match n with
  | NumInt 1 => Some StatusError
  | NumOther => None
  | _ => Some StatusSuccess
  end.

Fixpoint processInput (fuel : nat) (st : state) : outcome :=
  match fuel with
  | O => Diverges
  | S f =>
      let buf := outputBuffer st in
      match index_of buf separator with
      | None => Done st
      | Some idx =>
          let separatorIndex := (idx + List.length separator)%nat in
          (* nonce; the first two loops step over their colon *)
          match read_field f buf separatorIndex [] with
          | None => Diverges
          | Some (c1, nonceString) =>
          match read_field f buf (S c1) [] with
          | None => Diverges
          | Some (c2, lengthString) =>
          (* the third loop stops on its colon *)
          match read_field f buf (S c2) [] with
          | None => Diverges
          | Some (c3, statusString) =>
              let dataLength := Z.of_nat (List.length buf) - Z.of_nat c3 - 1 in
              let statusType := status_type_of (js_Number statusString) in
              (* [subarray(start, start + NaN)] is empty and
                 [subarray(c3 + NaN + 1)] is the whole buffer *)
              let frame :=
                match js_Number lengthString with
                | NumInt n =>
                    if dataLength <? n then
                      inl (n - dataLength)
                    else inr (Some (subarray buf (S c3) (S c3 + lengthNat n),
                                    skipn (S c3 + lengthNat n) buf))
                | NumNaN => inr (Some ([], buf))
                | NumOther => inr None
                end in
              match frame, statusType with
              | inl missing, _ => Done (set_missingData (Some missing) st)
              | inr (Some (data, rest)), Some ty =>
                  match onMessage ty nonceString data st with
                  | Done st1 =>
                      processInput f
                        (set_outputBuffer rest (set_missingData None st1))
                  | o => o
                  end
              | inr _, _ => Unmodelled
              end
          end end end
      end
  end.

(* ------------------------------------------------------------------ *)
(** ** The stdout, stderr and close handlers *)

(** [child.stdout.on('data', ...)]: the chunk is queued; when it holds
    no separator, a pending shortfall is decreased by its length, and the
    handler returns unless a shortfall exists and is covered. *)
Definition on_stdout (fuel : nat) (data : bytes) (st : state) : outcome :=
  let st1 := set_unprocessed (unprocessedBuffers st ++ [data]) st in
  let st2 :=
    match index_of data separator with
    | None =>
        set_missingData
          (option_map (fun m => m - Z.of_nat (List.length data)) (missingData st1))
          st1
    | Some _ => st1
    end in
  let early_return :=
    match index_of data separator with
    | None => match missingData st2 with None => true | Some m => 0 <? m end
    | Some _ => false
    end in
  if early_return then Done st2
  else
    processInput fuel
      (set_unprocessed []
         (set_outputBuffer
            (List.concat (outputBuffer st2 :: unprocessedBuffers st2)) st2)).

(** [child.stderr.on('data', ...)] *)
Definition on_stderr (data : bytes) (st : state) : state :=
  set_stderrChunks (stderrChunks st ++ [data]) st.

Definition reject_all (ws : list promise) (msg : jsstr) (st : state) : state :=
  fold_left (fun s w => settle (Reject w msg) s) ws st.

(** [child.on('close', ...)]; [code] is [None] when the child was killed
    by a signal (Node passes [null]). *)
Definition on_close (code : option Z) (st : state) : state :=
  let waitersToKill := map_values (waiters st) in
  match code with
  | Some 0 =>
      let st1 := set_runningStatus QuitWithoutError st in
      let st2 := match done_waiter st1 with
                 | Some p => settle (Resolve p None) st1
                 | None => st1
                 end in
      let st3 := reject_all waitersToKill (js "Compositor already quit") st2 in
      set_waiters [] st3
  | _ =>
      let errorMessage := utf8_decode (List.concat (stderrChunks st)) in
      let st1 := set_runningStatus (QuitWithError errorMessage) st in
      let error := js "Compositor panicked: " ++ errorMessage in
      let st2 := reject_all waitersToKill error st1 in
      let st3 := set_waiters [] st2 in
      match done_waiter st3 with
      | Some p => settle (Reject p error) st3
      | None => st3
      end
  end.

(** Result of a public call: the value returned, or the message of the
    [Error] thrown synchronously. *)
Inductive call_result (A : Type) :=
| Returns (a : A)
| Throws (message : jsstr).
Arguments Returns {A} a.
Arguments Throws {A} message.

(** [waitForDone()]: the promise executor runs synchronously. *)
Definition waitForDone (st : state) : promise * state :=
  let (n, st1) := fresh_id st in
  let p := PWait n in
  match runningStatus st1 with
  | QuitWithoutError => (p, settle (Reject p (js "Compositor already quit")) st1)
  | QuitWithError e =>
      (p, settle (Reject p (js "Compositor already quit: " ++ e)) st1)
  | Running => (p, set_done_waiter (Some p) st1)
  end.

(** [finishCommands()] *)
Definition finishCommands (st : state) : call_result unit * state :=
  match runningStatus st with
  | QuitWithError e => (Throws (js "Compositor already quit: " ++ e), st)
  | QuitWithoutError => (Throws (js "Compositor already quit"), st)
  | Running => (Returns tt, write_stdin EOFLine st)
  end.

(** [executeCommand(command, params)]; [nonce] is the value [makeNonce()]
    returns on this call. *)
Definition executeCommand (command : jsstr) (params : json) (nonce : jsstr)
    (st : state) : call_result promise * state :=
  match runningStatus st with
  | QuitWithoutError => (Throws (js "Compositor already quit"), st)
  | QuitWithError e => (Throws (js "Compositor quit: " ++ e), st)
  | Running =>
      let (n, st1) := fresh_id st in
      let p := PCmd n in
      let st2 := write_stdin (Request nonce command params) st1 in
      (Returns p, set_waiters (map_set nonce p (waiters st2)) st2)
  end.

(* ------------------------------------------------------------------ *)
(** ** Runs *)

(** What can happen to the supervisor: an event of the child, or a call
    of the public API. *)
Inductive event :=
| EvStdout (chunk : bytes)
| EvStderr (chunk : bytes)
| EvClose (code : option Z)
| EvExecute (command : jsstr) (params : json) (nonce : jsstr)
| EvWaitForDone
| EvFinishCommands.

Definition step (fuel : nat) (st : state) (ev : event) : outcome :=
  match ev with
  | EvStdout chunk => on_stdout fuel chunk st
  | EvStderr chunk => Done (on_stderr chunk st)
  | EvClose code => Done (on_close code st)
  | EvExecute c ps nonce => Done (snd (executeCommand c ps nonce st))
  | EvWaitForDone => Done (snd (waitForDone st))
  | EvFinishCommands => Done (snd (finishCommands st))
  end.

Fixpoint run (fuel : nat) (st : state) (evs : list event) : outcome :=
  match evs with
  | [] => Done st
  | ev :: evs' =>
      match step fuel st ev with
      | Done st' => run fuel st' evs'
      | o => o
      end
  end.

(* ------------------------------------------------------------------ *)
(** ** Frames *)

(** A well-formed frame:
    [remotion_buffer:<nonce>:<length>:<status>:<payload>]. *)
Definition frame (nonce : bytes) (status : bytes) (payload : bytes) : bytes :=
  separator ++ nonce ++ [colon]
  ++ decimal_string (Z.of_nat (List.length payload)) ++ [colon]
  ++ status ++ [colon] ++ payload.

Definition success_frame (nonce payload : bytes) : bytes :=
  frame nonce (js "0") payload.

Definition error_frame (nonce payload : bytes) : bytes :=
  frame nonce (js "1") payload.

(** The state after a first [executeCommand] under nonce [abc]. *)
Definition one_request (nonce : jsstr) : state :=
  snd (executeCommand (js "ExtractFrame") (JObj []) nonce initial_state).

(** The header of a frame: the marker, then the nonce, length and status
    fields, each followed by a colon. *)
Definition frame_header (nonce status : bytes) (len : Z) : bytes :=
  separator ++ nonce ++ [colon] ++ decimal_string len ++ [colon] ++ status ++ [colon].

(** The status field the compositor writes for each status type. *)
Definition status_bytes (ty : status_type) : bytes :=
  match ty with StatusSuccess => js "0" | StatusError => js "1" end.

Definition frame_of (x : bytes * status_type * bytes) : bytes :=
  let '(nonce, ty, payload) := x in frame nonce (status_bytes ty) payload.

(** [onMessage] called on each frame in turn. *)
Fixpoint onMessage_each (fs : list (bytes * status_type * bytes)) (st : state) : outcome :=
  match fs with
  | [] => Done st
  | (nonce, ty, payload) :: fs' =>
      match onMessage ty nonce payload st with
      | Done st1 => onMessage_each fs' st1
      | o => o
      end
  end.

(** [getIdealMaximumFrameCacheItems], with [os.freemem()] as its argument
    (a whole number of bytes).  [freeMemory / (1024 * 1024 * 6)] is a float
    division followed by [Math.floor]; for integers below 2^53 its result
    differs from the integer quotient only when that quotient exceeds
    10^9, far above the cap of 2000, so the integer quotient gives the same
    final value. *)
Definition getIdealMaximumFrameCacheItems (freeMemory : Z) : Z :=
  let max := freeMemory / (1024 * 1024 * 6) in
  Z.max 500 (Z.min max 2000).

(** Every promise in the waiter map is the promise of an
    [executeCommand] call. *)
Definition waiters_cmd (st : state) : Prop :=
  forall p, In p (map_values (waiters st)) -> exists n, p = PCmd n.

(** The stderr chunks carried by a list of events, in order. *)
Definition stderr_of (evs : list event) : list bytes :=
  flat_map (fun ev => match ev with EvStderr c => [c] | _ => [] end) evs.

Example single_request_response :
  run 10 (one_request (js "abc")) [EvStdout (js "remotion_buffer:abc:3:0:foo")]
  = Done (set_waiters []
            (settle (Resolve (PCmd 0) (Some (js "foo"))) (one_request (js "abc")))).
Proof. reflexivity. Qed.

Example two_frames_one_chunk :
  match run 10 (snd (executeCommand (js "X") JNull (js "b") (one_request (js "a"))))
          [EvStdout (js "remotion_buffer:a:1:0:Xremotion_buffer:b:1:0:Y")] with
  | Done st => settlements st = [Resolve (PCmd 0) (Some (js "X"));
                                 Resolve (PCmd 1) (Some (js "Y"))]
  | _ => False
  end.
Proof. vm_compute. reflexivity. Qed.

Example many_small_chunks :
  match run 30 (one_request (js "a"))
          ([EvStdout (js "remotion_buffer:a:10:0:")]
           ++ map (fun b => EvStdout [b]) (js "0123456789")) with
  | Done st => settlements st = [Resolve (PCmd 0) (Some (js "0123456789"))]
  | _ => False
  end.
Proof. vm_compute. reflexivity. Qed.

(* ================================================================== *)
(** * Properties *)

(* ------------------------------------------------------------------ *)
(** ** The header loops *)

Lemma read_field_no_colon : forall fuel buf i acc,
  (forall j d, (i <= j)%nat -> nth_error buf j = Some d -> d <> colon) ->
  read_field fuel buf i acc = None.
Proof.
  induction fuel as [|f IH]; intros buf i acc Hno; simpl; [reflexivity|].
  destruct (nth_error buf i) as [d|] eqn:Hd.
  - destruct (Z.eqb_spec d colon) as [Heq|Hne].
    + exfalso. exact (Hno i d (Nat.le_refl i) Hd Heq).
    + apply IH. intros j d' Hj Hj'. apply (Hno j d'); [lia|exact Hj'].
  - apply IH. intros j d' Hj Hj'. apply (Hno j d'); [lia|exact Hj'].
Qed.

Lemma read_field_found : forall field fuel pre post acc,
  (forall d, In d field -> d <> colon) ->
  (List.length field < fuel)%nat ->
  read_field fuel (pre ++ field ++ colon :: post) (List.length pre) acc
  = Some ((List.length pre + List.length field)%nat, acc ++ field).
Proof.
  induction field as [|x field IH]; intros fuel pre post acc Hno Hlen.
  - destruct fuel as [|f]; [simpl in Hlen; lia|].
    simpl. rewrite nth_error_app2 by lia. rewrite Nat.sub_diag. simpl.
    rewrite Nat.add_0_r, app_nil_r. reflexivity.
  - destruct fuel as [|f]; [simpl in Hlen; lia|].
    simpl. rewrite nth_error_app2 by lia. rewrite Nat.sub_diag. simpl.
    assert (Hx : x <> colon) by (apply Hno; left; reflexivity).
    apply Z.eqb_neq in Hx. rewrite Hx.
    specialize (IH f (pre ++ [x]) post (acc ++ [x])).
    rewrite <- app_assoc in IH. simpl in IH.
    rewrite length_app in IH. simpl in IH.
    replace (S (List.length pre)) with (List.length pre + 1)%nat by lia.
    rewrite IH.
    + f_equal. f_equal; [lia|]. rewrite <- app_assoc. reflexivity.
    + intros d Hd. apply Hno. right. exact Hd.
    + simpl in Hlen. lia.
Qed.

(** ** C4 *)
(** C4 (code_bug): a stdout chunk with the marker and an incomplete
    header, [remotion_buffer:abc], sends [processInput]'s first header
    loop past the end of the buffer: the stdout handler never returns,
    whatever the fuel, instead of keeping the bytes buffered. *)
Theorem incomplete_header_never_returns : forall fuel,
  run fuel (one_request (js "abc")) [EvStdout (js "remotion_buffer:abc")]
  = Diverges.
Proof.
  intros [|f]; [reflexivity|].
  unfold run, step, on_stdout. simpl.
  rewrite read_field_no_colon; [reflexivity|].
  intros j d Hj Hn.
  assert (Hc : (j = 16 \/ j = 17 \/ j = 18 \/ 19 <= j)%nat) by lia.
  destruct Hc as [->|[->|[->|Hge]]]; simpl in Hn.
  - injection Hn as <-. discriminate.
  - injection Hn as <-. discriminate.
  - injection Hn as <-. discriminate.
  - rewrite (proj2 (nth_error_None _ j)) in Hn; [discriminate|].
    simpl. lia.
Qed.

(** ** C1 *)
(** C1 (code_bug): the marker split over two chunks, [remotion_buf] and
    then [fer:abc:3:0:foo]. Neither chunk holds the whole marker, so the
    stdout handler returns early both times: the bytes stay queued, no
    frame is dispatched and the waiter for [abc] stays pending. *)
Theorem split_marker_frame_not_emitted : forall fuel,
  exists st,
    run fuel (one_request (js "abc"))
        [EvStdout (js "remotion_buf"); EvStdout (js "fer:abc:3:0:foo")]
    = Done st
    /\ settlements st = []
    /\ map_get (js "abc") (waiters st) = Some (PCmd 0)
    /\ unprocessedBuffers st = [js "remotion_buf"; js "fer:abc:3:0:foo"].
Proof.
  intros fuel. eexists. split; [reflexivity|].
  split; [reflexivity|]. split; reflexivity.
Qed.

(* ------------------------------------------------------------------ *)
(** ** Locating the marker *)

Lemma is_prefix_app : forall p l m,
  (List.length p <= List.length l)%nat -> is_prefix p (l ++ m) = is_prefix p l.
Proof.
  induction p as [|x p IH]; intros l m Hlen; [reflexivity|].
  destruct l as [|y l]; simpl in *; [lia|].
  rewrite IH by lia. reflexivity.
Qed.

Lemma is_prefix_refl : forall p, is_prefix p p = true.
Proof. induction p as [|x p IH]; simpl; [reflexivity|]. rewrite Z.eqb_refl. exact IH. Qed.

Lemma index_of_from_unfold : forall needle hay i,
  index_of_from needle hay i
  = if is_prefix needle hay then Some i
    else match hay with
         | [] => None
         | _ :: hay' => index_of_from needle hay' (S i)
         end.
Proof. intros needle [|x hay] i; reflexivity. Qed.

Lemma index_of_from_app : forall needle pre m i,
  index_of_from needle (pre ++ needle) i = Some (i + List.length pre)%nat ->
  index_of_from needle (pre ++ needle ++ m) i = Some (i + List.length pre)%nat.
Proof.
  intros needle pre m. induction pre as [|x pre IH]; intros i H;
    rewrite index_of_from_unfold in *; simpl in *.
  - rewrite is_prefix_app, is_prefix_refl by lia. f_equal. lia.
  - assert (Hl : (List.length needle <= List.length (x :: pre ++ needle))%nat)
      by (simpl; rewrite length_app; lia).
    pose proof (is_prefix_app needle (x :: pre ++ needle) m Hl) as Hp.
    simpl in Hp. rewrite <- app_assoc in Hp. rewrite Hp.
    destruct (is_prefix needle (x :: pre ++ needle)).
    + injection H as H. lia.
    + replace (i + S (List.length pre))%nat with (S i + List.length pre)%nat by lia.
      apply IH. rewrite H. f_equal. lia.
Qed.

Lemma index_of_app : forall pre m,
  index_of (pre ++ separator) separator = Some (List.length pre) ->
  index_of (pre ++ separator ++ m) separator = Some (List.length pre).
Proof.
  unfold index_of. intros pre m H. apply (index_of_from_app _ _ _ 0). exact H.
Qed.

(* ------------------------------------------------------------------ *)
(** ** Reading a whole header *)

Definition no_colon (l : list Z) : Prop := forall d, In d l -> d <> colon.

Lemma read_header : forall f pre nonce lenS statS tail,
  no_colon nonce -> no_colon lenS -> no_colon statS ->
  (List.length nonce < f)%nat -> (List.length lenS < f)%nat ->
  (List.length statS < f)%nat ->
  let B := pre ++ nonce ++ [colon] ++ lenS ++ [colon] ++ statS ++ [colon] ++ tail in
  let c1 := (List.length pre + List.length nonce)%nat in
  let c2 := (S c1 + List.length lenS)%nat in
  let c3 := (S c2 + List.length statS)%nat in
  read_field f B (List.length pre) [] = Some (c1, nonce)
  /\ read_field f B (S c1) [] = Some (c2, lenS)
  /\ read_field f B (S c2) [] = Some (c3, statS).
Proof.
  intros f pre nonce lenS statS tail Hn Hl Hs Hfn Hfl Hfs B c1 c2 c3.
  split; [|split].
  - unfold B. simpl. rewrite (read_field_found nonce f pre) by assumption.
    reflexivity.
  - assert (HB : B = (pre ++ nonce ++ [colon]) ++ lenS ++ colon :: statS ++ [colon] ++ tail)
      by (unfold B; repeat rewrite <- app_assoc; reflexivity).
    rewrite HB.
    replace (S c1) with (List.length (pre ++ nonce ++ [colon]))
      by (unfold c1; repeat rewrite length_app; simpl; lia).
    rewrite read_field_found by assumption.
    unfold c2, c1. f_equal. f_equal. repeat rewrite length_app. simpl. lia.
  - assert (HB : B = (pre ++ nonce ++ [colon] ++ lenS ++ [colon]) ++ statS ++ colon :: tail)
      by (unfold B; repeat rewrite <- app_assoc; reflexivity).
    rewrite HB.
    replace (S c2) with (List.length (pre ++ nonce ++ [colon] ++ lenS ++ [colon]))
      by (unfold c2, c1; repeat rewrite length_app; simpl; lia).
    rewrite read_field_found by assumption.
    unfold c3, c2, c1. f_equal. f_equal. repeat rewrite length_app. simpl. lia.
Qed.

Lemma skipn_length_app : forall (X Y : list Z), skipn (List.length X) (X ++ Y) = Y.
Proof. induction X as [|x X IH]; intros Y; simpl; auto. Qed.

Lemma skipn_length_app_add : forall (X Y : list Z) n,
  skipn (List.length X + n) (X ++ Y) = skipn n Y.
Proof. induction X as [|x X IH]; intros Y n; simpl; auto. Qed.

Lemma processInput_frame : forall f st pre nonce lenS statS P rest ty,
  outputBuffer st
  = pre ++ separator ++ nonce ++ [colon] ++ lenS ++ [colon] ++ statS ++ [colon]
    ++ P ++ rest ->
  index_of (pre ++ separator) separator = Some (List.length pre) ->
  no_colon nonce -> no_colon lenS -> no_colon statS ->
  (List.length nonce < f)%nat -> (List.length lenS < f)%nat ->
  (List.length statS < f)%nat ->
  js_Number lenS = NumInt (Z.of_nat (List.length P)) ->
  status_type_of (js_Number statS) = Some ty ->
  processInput (S f) st
  = match onMessage ty nonce P st with
    | Done st1 => processInput f (set_outputBuffer rest (set_missingData None st1))
    | o => o
    end.
Proof.
  intros f st pre nonce lenS statS P rest ty HB Hidx Hn Hl Hs Hfn Hfl Hfs Hlen Hty.
  pose proof (read_header f (pre ++ separator) nonce lenS statS (P ++ rest)
                Hn Hl Hs Hfn Hfl Hfs) as [R1 [R2 R3]].
  repeat rewrite <- app_assoc in R1, R2, R3.
  rewrite length_app in R1, R2, R3.
  cbn [processInput]. rewrite HB, index_of_app by exact Hidx.
  rewrite R1, R2, R3, Hlen, Hty.
  set (X := pre ++ separator ++ nonce ++ [colon] ++ lenS ++ [colon] ++ statS ++ [colon]).
  assert (HX : pre ++ separator ++ nonce ++ [colon] ++ lenS ++ [colon] ++ statS
               ++ [colon] ++ P ++ rest = X ++ P ++ rest)
    by (unfold X; repeat rewrite <- app_assoc; reflexivity).
  assert (HlX : List.length X
                = S (S (S (List.length pre + List.length separator
                           + List.length nonce) + List.length lenS)
                     + List.length statS))
    by (unfold X; repeat rewrite length_app; simpl; lia).
  rewrite HX.
  match goal with
  | |- context [if ?a <? ?b then _ else _] =>
      replace (a <? b) with false
        by (symmetry; apply Z.ltb_ge; rewrite length_app, length_app, HlX; lia)
  end.
  unfold subarray, lengthNat. rewrite Nat2Z.id.
  rewrite <- HlX.
  replace (List.length X + List.length P - List.length X)%nat
    with (List.length P) by lia.
  rewrite skipn_length_app, skipn_length_app_add, skipn_length_app.
  rewrite firstn_app, firstn_all, Nat.sub_diag. simpl. rewrite app_nil_r.
  reflexivity.
Qed.

Lemma processInput_nan_length : forall f st pre nonce lenS statS tail ty,
  outputBuffer st
  = pre ++ separator ++ nonce ++ [colon] ++ lenS ++ [colon] ++ statS ++ [colon]
    ++ tail ->
  index_of (pre ++ separator) separator = Some (List.length pre) ->
  no_colon nonce -> no_colon lenS -> no_colon statS ->
  (List.length nonce < f)%nat -> (List.length lenS < f)%nat ->
  (List.length statS < f)%nat ->
  js_Number lenS = NumNaN ->
  status_type_of (js_Number statS) = Some ty ->
  processInput (S f) st
  = match onMessage ty nonce [] st with
    | Done st1 =>
        processInput f (set_outputBuffer (outputBuffer st) (set_missingData None st1))
    | o => o
    end.
Proof.
  intros f st pre nonce lenS statS tail ty HB Hidx Hn Hl Hs Hfn Hfl Hfs Hlen Hty.
  pose proof (read_header f (pre ++ separator) nonce lenS statS tail
                Hn Hl Hs Hfn Hfl Hfs) as [R1 [R2 R3]].
  repeat rewrite <- app_assoc in R1, R2, R3.
  rewrite length_app in R1, R2, R3.
  cbn [processInput]. rewrite HB, index_of_app by exact Hidx.
  rewrite R1, R2, R3, Hlen, Hty.
  reflexivity.
Qed.

(* ------------------------------------------------------------------ *)
(** ** The waiter map *)

Lemma map_has_get : forall k m,
  map_has k m = match map_get k m with Some _ => true | None => false end.
Proof.
  induction m as [|[k' v] m IH]; simpl; [reflexivity|].
  destruct (key_eqb k k'); simpl; [reflexivity|exact IH].
Qed.

(** What [onMessage] can do to the state: log a line for nonce [0],
    and settle and delete the waiter of its nonce, if there is one. *)
Lemma onMessage_effect : forall ty n d st st',
  onMessage ty n d st = Done st' ->
  runningStatus st' = runningStatus st
  /\ done_waiter st' = done_waiter st
  /\ next_id st' = next_id st
  /\ stderrChunks st' = stderrChunks st
  /\ outputBuffer st' = outputBuffer st
  /\ unprocessedBuffers st' = unprocessedBuffers st
  /\ missingData st' = missingData st
  /\ ((map_get n (waiters st) = None
       /\ waiters st' = waiters st /\ settlements st' = settlements st)
      \/ (exists w s, map_get n (waiters st) = Some w
          /\ waiters st' = map_delete n (waiters st)
          /\ settlements st' = settlements st ++ [s]
          /\ settled_promise s = w)).
Proof.
  intros ty n d st st' H. unfold onMessage in H.
  set (st1 := if key_eqb n (js "0") then log_verbose (utf8_decode d) st else st) in H.
  assert (E : runningStatus st1 = runningStatus st /\ done_waiter st1 = done_waiter st
              /\ next_id st1 = next_id st /\ stderrChunks st1 = stderrChunks st
              /\ outputBuffer st1 = outputBuffer st
              /\ unprocessedBuffers st1 = unprocessedBuffers st
              /\ missingData st1 = missingData st
              /\ waiters st1 = waiters st /\ settlements st1 = settlements st)
    by (unfold st1; destruct (key_eqb n (js "0")); repeat split).
  destruct E as (E1 & E2 & E3 & E4 & E5 & E6 & E7 & E8 & E9).
  rewrite map_has_get in H. rewrite E8 in H.
  destruct (map_get n (waiters st)) as [w|] eqn:Hg.
  - destruct ty.
    + injection H as <-. simpl.
      repeat split; try assumption.
      right. exists w, (Resolve w (Some d)). rewrite E8, E9. repeat split.
    + destruct (error_frame_message d) as [msg|]; [|discriminate].
      injection H as <-. simpl.
      repeat split; try assumption.
      right. exists w, (Reject w msg). rewrite E8, E9. repeat split.
  - injection H as <-. repeat split; try assumption. left. repeat split; assumption.
Qed.

Lemma onMessage_empty_payload_done : forall ty n st,
  exists st1, onMessage ty n [] st = Done st1.
Proof.
  intros ty n st. unfold onMessage. rewrite map_has_get.
  destruct (map_get n _); [|eexists; reflexivity].
  destruct ty; eexists; reflexivity.
Qed.

(* ------------------------------------------------------------------ *)
(** ** A length field that is not a number *)

Definition nan_chunk : bytes := js "remotion_buffer:a:x:0:".

Lemma no_colon_a : no_colon (js "a").
Proof. intros d [<-|[]]. discriminate. Qed.

Lemma no_colon_x : no_colon (js "x").
Proof. intros d [<-|[]]. discriminate. Qed.

Lemma no_colon_0 : no_colon (js "0").
Proof. intros d [<-|[]]. discriminate. Qed.

Lemma nan_chunk_shape :
  nan_chunk = [] ++ separator ++ js "a" ++ [colon] ++ js "x" ++ [colon]
              ++ js "0" ++ [colon] ++ [].
Proof. reflexivity. Qed.

(** Once the waiter is gone, the header with the NaN length is dispatched
    again and again on the same buffer: [processInput] never returns. *)
Lemma nan_header_loops : forall st,
  outputBuffer st = nan_chunk -> missingData st = None ->
  map_get (js "a") (waiters st) = None ->
  forall f, processInput f st = Diverges.
Proof.
  intros st HB HM HW f. revert st HB HM HW.
  induction f as [|f IH]; intros st HB HM HW; [reflexivity|].
  destruct (Nat.lt_ge_cases f 2) as [Hf|Hf].
  - destruct f as [|[|f]]; [| |lia];
      cbn [processInput]; rewrite HB; reflexivity.
  - rewrite (processInput_nan_length f st [] (js "a") (js "x") (js "0") []
               StatusSuccess)
      by (try exact HB; try reflexivity; try apply no_colon_a;
          try apply no_colon_x; try apply no_colon_0; simpl; lia).
    destruct (onMessage StatusSuccess (js "a") [] st) as [st1| |] eqn:Hm.
    + destruct (onMessage_effect _ _ _ _ _ Hm)
        as (_ & _ & _ & _ & E5 & _ & _ & [[_ [E8 _]]|(w & _ & Hg & _)]).
      * apply IH; simpl; try reflexivity; try exact HB. rewrite E8. exact HW.
      * rewrite HW in Hg. discriminate.
    + destruct (onMessage_empty_payload_done StatusSuccess (js "a") st); congruence.
    + destruct (onMessage_empty_payload_done StatusSuccess (js "a") st); congruence.
Qed.

Lemma nan_chunk_run_diverges : forall fuel,
  run fuel (one_request (js "a")) [EvStdout nan_chunk] = Diverges.
Proof.
  intros fuel.
  destruct fuel as [|[|[|f]]]; try reflexivity.
  unfold run, step, on_stdout. cbn -[processInput].
  match goal with |- context [processInput _ ?s] => set (stX := s) end.
  rewrite (processInput_nan_length (S (S f)) stX [] (js "a") (js "x") (js "0") []
             StatusSuccess)
    by (try reflexivity; try apply no_colon_a; try apply no_colon_x;
        try apply no_colon_0; simpl; lia).
  destruct (onMessage StatusSuccess (js "a") [] stX) as [st1| |] eqn:Hm.
  - destruct (onMessage_effect _ _ _ _ _ Hm)
      as (_ & _ & _ & _ & _ & _ & _ & [[Hg _]|(w & _ & _ & E8 & _)]).
    + discriminate.
    + rewrite nan_header_loops; try reflexivity.
      simpl. rewrite E8. reflexivity.
  - reflexivity.
  - destruct (onMessage_empty_payload_done StatusSuccess (js "a") stX); congruence.
Qed.

Lemma read_field_short : forall field fuel pre post acc,
  (forall d, In d field -> d <> colon) ->
  (fuel <= List.length field)%nat ->
  read_field fuel (pre ++ field ++ colon :: post) (List.length pre) acc = None.
Proof.
  induction field as [|x field IH]; intros fuel pre post acc Hno Hlen.
  - destruct fuel as [|f]; [reflexivity|simpl in Hlen; lia].
  - destruct fuel as [|f]; [reflexivity|].
    simpl. rewrite nth_error_app2 by lia. rewrite Nat.sub_diag. simpl.
    assert (Hx : x <> colon) by (apply Hno; left; reflexivity).
    apply Z.eqb_neq in Hx. rewrite Hx.
    specialize (IH f (pre ++ [x]) post (acc ++ [x])).
    rewrite <- app_assoc in IH. simpl in IH.
    rewrite length_app in IH. simpl in IH.
    replace (S (List.length pre)) with (List.length pre + 1)%nat by lia.
    apply IH.
    + intros d Hd. apply Hno. right. exact Hd.
    + simpl in Hlen. lia.
Qed.

(** With too little fuel to read the three header fields, one of the
    header loops runs out of fuel. *)
Lemma processInput_header_short : forall f st pre nonce lenS statS tail,
  outputBuffer st
  = pre ++ separator ++ nonce ++ [colon] ++ lenS ++ [colon] ++ statS ++ [colon]
    ++ tail ->
  index_of (pre ++ separator) separator = Some (List.length pre) ->
  no_colon nonce -> no_colon lenS -> no_colon statS ->
  ~ ((List.length nonce < f)%nat /\ (List.length lenS < f)%nat
     /\ (List.length statS < f)%nat) ->
  processInput (S f) st = Diverges.
Proof.
  intros f st pre nonce lenS statS tail HB Hidx Hn Hl Hs Hf.
  cbn [processInput]. rewrite HB, index_of_app by exact Hidx.
  set (B := pre ++ separator ++ nonce ++ [colon] ++ lenS ++ [colon] ++ statS ++ [colon]
            ++ tail).
  replace (List.length pre + List.length separator)%nat
    with (List.length (pre ++ separator)) by (rewrite length_app; reflexivity).
  destruct (Nat.lt_ge_cases (List.length nonce) f) as [H1|H1].
  2:{ assert (E : B = (pre ++ separator) ++ nonce ++ colon :: lenS ++ [colon] ++ statS
                      ++ [colon] ++ tail)
        by (unfold B; repeat rewrite <- app_assoc; reflexivity).
      rewrite E, read_field_short by assumption. reflexivity. }
  assert (E1 : B = (pre ++ separator) ++ nonce ++ colon :: lenS ++ [colon] ++ statS
                   ++ [colon] ++ tail)
    by (unfold B; repeat rewrite <- app_assoc; reflexivity).
  rewrite E1, read_field_found by assumption. rewrite <- E1.
  destruct (Nat.lt_ge_cases (List.length lenS) f) as [H2|H2].
  2:{ assert (E : B = ((pre ++ separator) ++ nonce ++ [colon]) ++ lenS ++ colon :: statS
                      ++ [colon] ++ tail)
        by (unfold B; repeat rewrite <- app_assoc; reflexivity).
      replace (S (List.length (pre ++ separator) + List.length nonce))
        with (List.length ((pre ++ separator) ++ nonce ++ [colon]))
        by (repeat rewrite length_app; simpl; lia).
      rewrite E, read_field_short by assumption. reflexivity. }
  assert (E2 : B = ((pre ++ separator) ++ nonce ++ [colon]) ++ lenS ++ colon :: statS
                   ++ [colon] ++ tail)
    by (unfold B; repeat rewrite <- app_assoc; reflexivity).
  replace (S (List.length (pre ++ separator) + List.length nonce))
    with (List.length ((pre ++ separator) ++ nonce ++ [colon]))
    by (repeat rewrite length_app; simpl; lia).
  rewrite E2, read_field_found by assumption. rewrite <- E2.
  assert (H3 : (f <= List.length statS)%nat) by lia.
  assert (E : B = ((pre ++ separator) ++ nonce ++ [colon] ++ lenS ++ [colon]) ++ statS
                  ++ colon :: tail)
    by (unfold B; repeat rewrite <- app_assoc; reflexivity).
  replace (S (List.length ((pre ++ separator) ++ nonce ++ [colon]) + List.length lenS))
    with (List.length ((pre ++ separator) ++ nonce ++ [colon] ++ lenS ++ [colon]))
    by (repeat rewrite length_app; simpl; lia).
  rewrite E, read_field_short by assumption. reflexivity.
Qed.

(** A header with a [NaN] length: whatever the fuel, [processInput] does
    not return, as the frame is dispatched again on the unchanged buffer. *)
Lemma nan_header_diverges : forall f st pre nonce lenS statS tail ty,
  outputBuffer st
  = pre ++ separator ++ nonce ++ [colon] ++ lenS ++ [colon] ++ statS ++ [colon]
    ++ tail ->
  index_of (pre ++ separator) separator = Some (List.length pre) ->
  no_colon nonce -> no_colon lenS -> no_colon statS ->
  js_Number lenS = NumNaN ->
  status_type_of (js_Number statS) = Some ty ->
  processInput f st = Diverges.
Proof.
  induction f as [|f IH]; intros st pre nonce lenS statS tail ty HB Hidx Hn Hl Hs Hlen Hty;
    [reflexivity|].
  destruct (Nat.lt_ge_cases (List.length nonce) f) as [H1|H1];
    [destruct (Nat.lt_ge_cases (List.length lenS) f) as [H2|H2];
     [destruct (Nat.lt_ge_cases (List.length statS) f) as [H3|H3]|]|].
  - rewrite (processInput_nan_length f st pre nonce lenS statS tail ty) by assumption.
    destruct (onMessage_empty_payload_done ty nonce st) as [st1 Hm]. rewrite Hm.
    apply (IH _ pre nonce lenS statS tail ty); assumption.
  - apply (processInput_header_short f st pre nonce lenS statS tail); try assumption. lia.
  - apply (processInput_header_short f st pre nonce lenS statS tail); try assumption. lia.
  - apply (processInput_header_short f st pre nonce lenS statS tail); try assumption. lia.
Qed.

(** ** C3 *)
(** C3 (corrected), counterexample: a frame whose length field is [x]
    never brings the lifecycle to [QuitWithError]: there is no
    protocol-violation path, and the stdout handler does not come back. *)
Lemma nan_length_no_protocol_violation :
  ~ (exists fuel st e,
       run fuel (one_request (js "a")) [EvStdout nan_chunk] = Done st
       /\ runningStatus st = QuitWithError e).
Proof.
  intros (fuel & st & e & H & _).
  rewrite nan_chunk_run_diverges in H. discriminate.
Qed.

(** C3 (corrected), the amended claim: there is no protocol-violation
    path. On a header whose length field is not a number ([Number] gives
    [NaN]), [processInput] dispatches the frame to [onMessage] with an empty
    payload, which leaves the running status as it is, keeps the whole
    buffer, and calls itself again on the same buffer: it never returns,
    whatever the fuel. *)
Theorem nan_length_loops_forever : forall st pre nonce lenS statS tail ty,
  outputBuffer st
  = pre ++ separator ++ nonce ++ [colon] ++ lenS ++ [colon] ++ statS ++ [colon]
    ++ tail ->
  index_of (pre ++ separator) separator = Some (List.length pre) ->
  no_colon nonce -> no_colon lenS -> no_colon statS ->
  js_Number lenS = NumNaN ->
  status_type_of (js_Number statS) = Some ty ->
  (exists st1,
     onMessage ty nonce [] st = Done st1
     /\ runningStatus st1 = runningStatus st
     /\ forall f, (List.length nonce < f)%nat -> (List.length lenS < f)%nat ->
        (List.length statS < f)%nat ->
        processInput (S f) st
        = processInput f (set_outputBuffer (outputBuffer st) (set_missingData None st1)))
  /\ forall f, processInput f st = Diverges.
Proof.
  intros st pre nonce lenS statS tail ty HB Hidx Hn Hl Hs Hlen Hty.
  split.
  - destruct (onMessage_empty_payload_done ty nonce st) as [st1 Hm].
    exists st1. split; [exact Hm|]. split.
    + apply (onMessage_effect _ _ _ _ _ Hm).
    + intros f Hfn Hfl Hfs.
      rewrite (processInput_nan_length f st pre nonce lenS statS tail ty)
        by assumption.
      rewrite Hm. reflexivity.
  - intros f. exact (nan_header_diverges f st pre nonce lenS statS tail ty
                       HB Hidx Hn Hl Hs Hlen Hty).
Qed.

Lemma nan_length_loops_forever_witness :
  (exists st1,
     onMessage StatusSuccess (js "a") [] (set_outputBuffer nan_chunk (one_request (js "a")))
     = Done st1
     /\ runningStatus st1 = runningStatus (set_outputBuffer nan_chunk (one_request (js "a")))
     /\ forall f, (List.length (js "a") < f)%nat -> (List.length (js "x") < f)%nat ->
        (List.length (js "0") < f)%nat ->
        processInput (S f) (set_outputBuffer nan_chunk (one_request (js "a")))
        = processInput f (set_outputBuffer nan_chunk (set_missingData None st1)))
  /\ forall f, processInput f (set_outputBuffer nan_chunk (one_request (js "a"))) = Diverges.
Proof.
  exact (nan_length_loops_forever
           (set_outputBuffer nan_chunk (one_request (js "a")))
           [] (js "a") (js "x") (js "0") [] StatusSuccess
           eq_refl eq_refl no_colon_a no_colon_x no_colon_0 eq_refl eq_refl).
Defined.

(* ------------------------------------------------------------------ *)
(** ** The length field of a well-formed frame *)

Lemma digits_aux_S : forall f n acc,
  digits_aux (S f) n acc
  = if n <? 10 then (48 + n) :: acc
    else digits_aux f (n / 10) ((48 + n mod 10) :: acc).
Proof. reflexivity. Qed.

Lemma digits_aux_value : forall fuel n acc,
  0 <= n < 10 ^ Z.of_nat fuel ->
  decimal_value 0 (digits_aux fuel n acc) = decimal_value n acc.
Proof.
  induction fuel as [|f IH]; intros n acc Hn.
  - simpl in Hn. simpl. replace n with 0 by lia. reflexivity.
  - rewrite digits_aux_S. destruct (Z.ltb_spec n 10) as [Hlt|Hge].
    + cbn [decimal_value]. f_equal. lia.
    + rewrite IH.
      * cbn [decimal_value]. f_equal. pose proof (Z.div_mod n 10 ltac:(lia)). lia.
      * split; [apply Z.div_pos; lia|].
        apply Z.div_lt_upper_bound; [lia|].
        rewrite Nat2Z.inj_succ, Z.pow_succ_r in Hn by lia. lia.
Qed.

Lemma digits_aux_digits : forall fuel n acc,
  0 <= n -> forallb is_digit acc = true ->
  forallb is_digit (digits_aux fuel n acc) = true.
Proof.
  induction fuel as [|f IH]; intros n acc Hn Hacc; [exact Hacc|].
  rewrite digits_aux_S. destruct (Z.ltb_spec n 10) as [Hlt|Hge].
  - cbn [forallb]. rewrite Hacc, andb_true_r. unfold is_digit.
    apply andb_true_intro; split; apply Z.leb_le; lia.
  - apply IH; [apply Z.div_pos; lia|].
    cbn [forallb]. rewrite Hacc, andb_true_r. unfold is_digit.
    pose proof (Z.mod_pos_bound n 10 ltac:(lia)).
    apply andb_true_intro; split; apply Z.leb_le; lia.
Qed.

Lemma digits_aux_nonempty : forall f n acc, digits_aux (S f) n acc <> [].
Proof.
  induction f as [|f IH]; intros n acc; simpl.
  - destruct (n <? 10); discriminate.
  - destruct (n <? 10); [discriminate|]. apply IH.
Qed.

Lemma decimal_string_bound : forall n,
  0 <= n -> n < 10 ^ Z.of_nat (S (Z.to_nat (Z.log2 n))).
Proof.
  intros n Hn.
  rewrite Nat2Z.inj_succ, Z2Nat.id by apply Z.log2_nonneg.
  destruct (Z.eq_dec n 0) as [->|Hnz]; [simpl; lia|].
  pose proof (Z.log2_spec n ltac:(lia)) as [_ Hup].
  rewrite <- Z.add_1_r in *.
  eapply Z.lt_le_trans; [exact Hup|].
  apply Z.pow_le_mono_l. split; [lia|lia].
Qed.

Lemma drop_space_digits : forall l, forallb is_digit l = true -> drop_space l = l.
Proof.
  intros [|c l] H; [reflexivity|]. simpl in *.
  apply andb_true_iff in H as [Hc _]. unfold is_digit in Hc.
  apply andb_true_iff in Hc as [H1 H2]. apply Z.leb_le in H1, H2.
  unfold is_js_space.
  replace (existsb (Z.eqb c) _) with false.
  - replace ((8192 <=? c) && (c <=? 8202)) with false; [reflexivity|].
    symmetry. apply andb_false_iff. left. apply Z.leb_gt. lia.
  - symmetry. simpl.
    repeat (rewrite (proj2 (Z.eqb_neq c _)) by lia; simpl). reflexivity.
Qed.

Lemma forallb_rev : forall (p : Z -> bool) l, forallb p (rev l) = forallb p l.
Proof.
  intros p l. induction l as [|x l IH]; simpl; [reflexivity|].
  rewrite forallb_app, IH. simpl. rewrite andb_true_r, andb_comm. reflexivity.
Qed.

Lemma trim_digits : forall l, forallb is_digit l = true -> trim l = l.
Proof.
  intros l H. unfold trim.
  rewrite (drop_space_digits l H), drop_space_digits, rev_involutive;
    [reflexivity|].
  rewrite forallb_rev. exact H.
Qed.

Lemma decimal_string_digits : forall n,
  0 <= n -> forallb is_digit (decimal_string n) = true.
Proof. intros n Hn. apply digits_aux_digits; [exact Hn|reflexivity]. Qed.

Lemma js_Number_decimal_string : forall n,
  0 <= n < 2 ^ 53 -> js_Number (decimal_string n) = NumInt n.
Proof.
  intros n Hn. unfold js_Number.
  rewrite trim_digits by (apply decimal_string_digits; lia).
  pose proof (decimal_string_digits n ltac:(lia)) as Hd.
  destruct (decimal_string n) as [|c t] eqn:E.
  - exfalso. exact (digits_aux_nonempty _ n [] E).
  - rewrite <- E. rewrite (decimal_string_digits n) by lia.
    assert (Hv : decimal_value 0 (decimal_string n) = n).
    { unfold decimal_string. rewrite digits_aux_value.
      - reflexivity.
      - split; [lia|]. apply decimal_string_bound. lia. }
    rewrite Hv. replace (n <? 2 ^ 53) with true by (symmetry; apply Z.ltb_lt; lia).
    reflexivity.
Qed.

Lemma no_colon_digits : forall l, forallb is_digit l = true -> no_colon l.
Proof.
  intros l H d Hin Hd. rewrite forallb_forall in H.
  specialize (H d Hin). subst d. discriminate.
Qed.

(* ------------------------------------------------------------------ *)
(** ** Dispatch to a registered waiter *)

Lemma onMessage_registered : forall ty n d st w,
  map_get n (waiters st) = Some w ->
  onMessage ty n d st
  = match match ty with
          | StatusSuccess => Some (Resolve w (Some d))
          | StatusError => option_map (Reject w) (error_frame_message d)
          end with
    | Some s =>
        let st1 := if key_eqb n (js "0") then log_verbose (utf8_decode d) st else st in
        Done (set_waiters (map_delete n (waiters st)) (settle s st1))
    | None => Unmodelled
    end.
Proof.
  intros ty n d st w Hg. unfold onMessage.
  destruct (key_eqb n (js "0")); simpl; rewrite map_has_get; simpl; rewrite Hg;
    destruct ty; try reflexivity;
    destruct (error_frame_message d); reflexivity.
Qed.

Lemma settlements_log_if : forall (b : bool) m st,
  settlements (if b then log_verbose m st else st) = settlements st.
Proof. intros [|] m st; reflexivity. Qed.

Lemma length_frame_fields : forall pre nonce lenS statS P rest,
  List.length (pre ++ separator ++ nonce ++ [colon] ++ lenS ++ [colon] ++ statS
               ++ [colon] ++ P ++ rest)
  = (List.length pre + 16 + List.length nonce + 1 + List.length lenS + 1
     + List.length statS + 1 + List.length P + List.length rest)%nat.
Proof. intros. repeat rewrite length_app. simpl. lia. Qed.

Lemma frame_shape : forall pre nonce status P rest,
  pre ++ frame nonce status P ++ rest
  = pre ++ separator ++ nonce ++ [colon]
    ++ decimal_string (Z.of_nat (List.length P)) ++ [colon]
    ++ status ++ [colon] ++ P ++ rest.
Proof. intros. unfold frame. repeat rewrite <- app_assoc. reflexivity. Qed.

(** ** C6 *)
(** C6 (confirmed): a well-formed success frame carrying any payload [P]
    (empty or not, any byte values) that starts at the first marker of
    the buffer is dispatched by one step of [processInput] to the waiter
    of its nonce, which is resolved with exactly the bytes [P]; the
    parser then goes on with the bytes after the payload. *)
Theorem success_frame_resolves_payload : forall f st pre nonce P rest w,
  outputBuffer st = pre ++ success_frame nonce P ++ rest ->
  index_of (pre ++ separator) separator = Some (List.length pre) ->
  no_colon nonce ->
  (List.length (outputBuffer st) < f)%nat ->
  Z.of_nat (List.length P) < 2 ^ 53 ->
  map_get nonce (waiters st) = Some w ->
  exists st1,
    processInput (S f) st
    = processInput f (set_outputBuffer rest (set_missingData None st1))
    /\ settlements st1 = settlements st ++ [Resolve w (Some P)]
    /\ waiters st1 = map_delete nonce (waiters st).
Proof.
  intros f st pre nonce P rest w HB Hidx Hn Hf HP Hg.
  unfold success_frame in HB. rewrite frame_shape in HB.
  assert (Hfl := Hf). rewrite HB, length_frame_fields in Hfl.
  rewrite (processInput_frame f st pre nonce
             (decimal_string (Z.of_nat (List.length P))) (js "0") P rest
             StatusSuccess HB Hidx Hn).
  - rewrite (onMessage_registered StatusSuccess nonce P st w Hg). simpl.
    eexists. split; [reflexivity|]. simpl.
    rewrite settlements_log_if. split; reflexivity.
  - apply no_colon_digits, decimal_string_digits. lia.
  - exact no_colon_0.
  - lia.
  - lia.
  - simpl in Hfl |- *. lia.
  - apply js_Number_decimal_string. lia.
  - reflexivity.
Qed.

Lemma success_frame_resolves_payload_witness :
  exists st1,
    processInput 40 (set_outputBuffer (success_frame (js "abc") (js "foo"))
                      (one_request (js "abc")))
    = processInput 39 (set_outputBuffer [] (set_missingData None st1))
    /\ settlements st1 = [Resolve (PCmd 0) (Some (js "foo"))]
    /\ waiters st1 = [].
Proof.
  apply (success_frame_resolves_payload 39
           (set_outputBuffer (success_frame (js "abc") (js "foo"))
              (one_request (js "abc")))
           [] (js "abc") (js "foo") [] (PCmd 0)).
  - reflexivity.
  - reflexivity.
  - intros d Hd. simpl in Hd. unfold colon. lia.
  - simpl. lia.
  - simpl. lia.
  - reflexivity.
Defined.

(* ------------------------------------------------------------------ *)
(** ** Error frames *)

Lemma error_frame_step : forall f st pre nonce P rest w,
  outputBuffer st = pre ++ error_frame nonce P ++ rest ->
  index_of (pre ++ separator) separator = Some (List.length pre) ->
  no_colon nonce ->
  (List.length (outputBuffer st) < f)%nat ->
  Z.of_nat (List.length P) < 2 ^ 53 ->
  map_get nonce (waiters st) = Some w ->
  forall msg, error_frame_message P = Some msg ->
  exists st1,
    processInput (S f) st
    = processInput f (set_outputBuffer rest (set_missingData None st1))
    /\ settlements st1 = settlements st ++ [Reject w msg]
    /\ waiters st1 = map_delete nonce (waiters st).
Proof.
  intros f st pre nonce P rest w HB Hidx Hn Hf HP Hg msg Hmsg.
  unfold error_frame in HB. rewrite frame_shape in HB.
  assert (Hfl := Hf). rewrite HB, length_frame_fields in Hfl.
  rewrite (processInput_frame f st pre nonce
             (decimal_string (Z.of_nat (List.length P))) (js "1") P rest
             StatusError HB Hidx Hn).
  - rewrite (onMessage_registered StatusError nonce P st w Hg). rewrite Hmsg.
    simpl. eexists. split; [reflexivity|]. simpl.
    rewrite settlements_log_if. split; reflexivity.
  - apply no_colon_digits, decimal_string_digits. lia.
  - intros d [<-|[]]. discriminate.
  - lia.
  - lia.
  - simpl in Hfl |- *. lia.
  - apply js_Number_decimal_string. lia.
  - reflexivity.
Qed.

Definition compositor_error (e b : jsstr) : jsstr :=
  js "Compositor error: " ++ e ++ [10] ++ b.

Lemma error_message_fields : forall P kvs e b,
  json_parse (utf8_decode P) = Parsed (JObj kvs) ->
  assoc_last (js "error") kvs = Some (JStr e) ->
  assoc_last (js "backtrace") kvs = Some (JStr b) ->
  error_frame_message P = Some (compositor_error e b).
Proof.
  intros P kvs e b Hp He Hb. unfold error_frame_message. rewrite Hp.
  simpl. rewrite He, Hb. reflexivity.
Qed.

Lemma error_message_syntax : forall P,
  json_parse (utf8_decode P) = SyntaxError ->
  error_frame_message P = Some (utf8_decode P).
Proof. intros P Hp. unfold error_frame_message. rewrite Hp. reflexivity. Qed.

Lemma error_message_no_fields : forall P kvs,
  json_parse (utf8_decode P) = Parsed (JObj kvs) ->
  assoc_last (js "error") kvs = None ->
  assoc_last (js "backtrace") kvs = None ->
  error_frame_message P = Some (compositor_error (js "undefined") (js "undefined")).
Proof.
  intros P kvs Hp He Hb. unfold error_frame_message. rewrite Hp.
  simpl. rewrite He, Hb. reflexivity.
Qed.

Example error_frame_json :
  match run 60 (one_request (js "abc"))
          [EvStdout (error_frame (js "abc") (jsq "{'error':'bad','backtrace':'at foo'}"))] with
  | Done st => settlements st = [Reject (PCmd 0) (compositor_error (js "bad") (js "at foo"))]
  | _ => False
  end.
Proof. vm_compute. reflexivity. Qed.

(** ** C7 *)
(** C7 (corrected), counterexample: the payload [{"x":1}] is valid JSON
    without the fields [error] and [backtrace]. It is not rejected with
    the raw payload, but with "Compositor error: undefined\nundefined". *)
Lemma json_without_fields_not_raw :
  exists st,
    run 60 (one_request (js "a")) [EvStdout (error_frame (js "a") (jsq "{'x':1}"))]
    = Done st
    /\ settlements st
       = [Reject (PCmd 0) (compositor_error (js "undefined") (js "undefined"))]
    /\ ~ In (Reject (PCmd 0) (utf8_decode (jsq "{'x':1}"))) (settlements st).
Proof.
  eexists. split; [vm_compute; reflexivity|]. split.
  - vm_compute. reflexivity.
  - vm_compute. intros [H|[]]. discriminate.
Qed.

(** C7 (corrected), the amended claim: an error frame for a registered
    waiter rejects it with "Compositor error: e\nb" when the payload
    parses to an object whose [error] and [backtrace] are strings [e] and
    [b]; with the payload decoded as UTF-8 when [JSON.parse] throws; and
    with "Compositor error: undefined\nundefined" when it parses to an
    object without those fields. *)
Theorem error_frame_rejections : forall f st pre nonce P rest w,
  outputBuffer st = pre ++ error_frame nonce P ++ rest ->
  index_of (pre ++ separator) separator = Some (List.length pre) ->
  no_colon nonce ->
  (List.length (outputBuffer st) < f)%nat ->
  Z.of_nat (List.length P) < 2 ^ 53 ->
  map_get nonce (waiters st) = Some w ->
  (forall kvs e b,
     json_parse (utf8_decode P) = Parsed (JObj kvs) ->
     assoc_last (js "error") kvs = Some (JStr e) ->
     assoc_last (js "backtrace") kvs = Some (JStr b) ->
     exists st1,
       processInput (S f) st
       = processInput f (set_outputBuffer rest (set_missingData None st1))
       /\ settlements st1 = settlements st ++ [Reject w (compositor_error e b)])
  /\ (json_parse (utf8_decode P) = SyntaxError ->
      exists st1,
        processInput (S f) st
        = processInput f (set_outputBuffer rest (set_missingData None st1))
        /\ settlements st1 = settlements st ++ [Reject w (utf8_decode P)])
  /\ (forall kvs,
        json_parse (utf8_decode P) = Parsed (JObj kvs) ->
        assoc_last (js "error") kvs = None ->
        assoc_last (js "backtrace") kvs = None ->
        exists st1,
          processInput (S f) st
          = processInput f (set_outputBuffer rest (set_missingData None st1))
          /\ settlements st1
             = settlements st
               ++ [Reject w (compositor_error (js "undefined") (js "undefined"))]).
Proof.
  intros f st pre nonce P rest w HB Hidx Hn Hf HP Hg.
  split; [|split].
  - intros kvs e b Hp He Hb.
    destruct (error_frame_step f st pre nonce P rest w HB Hidx Hn Hf HP Hg _
                (error_message_fields P kvs e b Hp He Hb)) as [st1 [H1 [H2 _]]].
    exists st1. split; assumption.
  - intros Hp.
    destruct (error_frame_step f st pre nonce P rest w HB Hidx Hn Hf HP Hg _
                (error_message_syntax P Hp)) as [st1 [H1 [H2 _]]].
    exists st1. split; assumption.
  - intros kvs Hp He Hb.
    destruct (error_frame_step f st pre nonce P rest w HB Hidx Hn Hf HP Hg _
                (error_message_no_fields P kvs Hp He Hb)) as [st1 [H1 [H2 _]]].
    exists st1. split; assumption.
Qed.

Lemma error_frame_rejections_witness :
  exists st1,
    processInput 81 (set_outputBuffer
                       (error_frame (js "a") (jsq "{'error':'bad','backtrace':'at foo'}"))
                       (one_request (js "a")))
    = processInput 80 (set_outputBuffer [] (set_missingData None st1))
    /\ settlements st1 = [Reject (PCmd 0) (compositor_error (js "bad") (js "at foo"))].
Proof.
  destruct (error_frame_rejections 80
              (set_outputBuffer
                 (error_frame (js "a") (jsq "{'error':'bad','backtrace':'at foo'}"))
                 (one_request (js "a")))
              [] (js "a") (jsq "{'error':'bad','backtrace':'at foo'}") [] (PCmd 0))
    as [Hfields _].
  - reflexivity.
  - reflexivity.
  - intros d Hd. simpl in Hd. unfold colon. lia.
  - vm_compute. lia.
  - simpl. lia.
  - reflexivity.
  - apply (Hfields [(js "error", JStr (js "bad")); (js "backtrace", JStr (js "at foo"))]);
      vm_compute; reflexivity.
Defined.

(* ------------------------------------------------------------------ *)
(** ** Frames for nonce 0 *)




(* ------------------------------------------------------------------ *)
(** ** What the stdout handler does to the waiters *)

(** [takes m L m' L']: from the map [m] and the settlements [L], the map
    [m'] and settlements [L'] are reached by taking waiters out of the
    map one at a time, each settled once when it is taken. *)
Inductive takes : waiter_map -> list settlement -> waiter_map -> list settlement -> Prop :=
| takes_refl m L : takes m L m L
| takes_step m L n w s m' L' :
    map_get n m = Some w -> settled_promise s = w ->
    takes (map_delete n m) (L ++ [s]) m' L' -> takes m L m' L'.

Lemma takes_trans : forall m L m1 L1 m2 L2,
  takes m L m1 L1 -> takes m1 L1 m2 L2 -> takes m L m2 L2.
Proof.
  intros m L m1 L1 m2 L2 H1. induction H1; intros H2; [exact H2|].
  eapply takes_step; eauto.
Qed.

Definition parser_effect (st st' : state) : Prop :=
  runningStatus st' = runningStatus st
  /\ done_waiter st' = done_waiter st
  /\ next_id st' = next_id st
  /\ stderrChunks st' = stderrChunks st
  /\ takes (waiters st) (settlements st) (waiters st') (settlements st').

Lemma parser_effect_refl : forall st, parser_effect st st.
Proof. intros st. repeat split. apply takes_refl. Qed.

Lemma parser_effect_trans : forall a b c,
  parser_effect a b -> parser_effect b c -> parser_effect a c.
Proof.
  intros a b c (E1 & E2 & E3 & E4 & T1) (F1 & F2 & F3 & F4 & T2).
  repeat split; try congruence. eapply takes_trans; eauto.
Qed.

Lemma onMessage_parser_effect : forall ty n d st st',
  onMessage ty n d st = Done st' -> parser_effect st st'.
Proof.
  intros ty n d st st' H.
  destruct (onMessage_effect _ _ _ _ _ H)
    as (E1 & E2 & E3 & E4 & _ & _ & _ & [[_ [E8 E9]]|(w & s & Hg & E8 & E9 & Hs)]).
  - repeat split; try assumption. rewrite E8, E9. apply takes_refl.
  - repeat split; try assumption. rewrite E8, E9.
    eapply takes_step; [exact Hg|exact Hs|apply takes_refl].
Qed.

Lemma processInput_parser_effect : forall f st st',
  processInput f st = Done st' -> parser_effect st st'.
Proof.
  induction f as [|f IH]; intros st st' H; [discriminate|].
  cbn [processInput] in H.
  destruct (index_of (outputBuffer st) separator) as [idx|];
    [|injection H as <-; apply parser_effect_refl].
  destruct (read_field f _ (idx + _) []) as [[c1 nonceS]|]; [|discriminate].
  destruct (read_field f _ (S c1) []) as [[c2 lenS]|]; [|discriminate].
  destruct (read_field f _ (S c2) []) as [[c3 statS]|]; [|discriminate].
  match type of H with
  | context [match ?x with inl _ => _ | inr _ => _ end] =>
      destruct x as [missing|[[data rest]|]]
  end.
  - injection H as <-. repeat split. apply takes_refl.
  - destruct (status_type_of (js_Number statS)) as [ty|]; [|discriminate].
    destruct (onMessage ty nonceS data st) as [st1| |] eqn:Hm; try discriminate.
    apply IH in H.
    eapply parser_effect_trans; [apply (onMessage_parser_effect _ _ _ _ _ Hm)|].
    eapply parser_effect_trans; [|exact H].
    repeat split. apply takes_refl.
  - discriminate.
Qed.

Lemma on_stdout_parser_effect : forall f d st st',
  on_stdout f d st = Done st' -> parser_effect st st'.
Proof.
  intros f d st st' H. unfold on_stdout in H.
  match type of H with
  | (if ?b then _ else _) = _ => destruct b
  end.
  - injection H as <-.
    destruct (index_of d separator); repeat split; apply takes_refl.
  - apply processInput_parser_effect in H.
    eapply parser_effect_trans; [|exact H].
    destruct (index_of d separator); repeat split; apply takes_refl.
Qed.

Lemma takes_nil : forall L m' L', takes [] L m' L' -> m' = [] /\ L' = L.
Proof.
  intros L m' L' H. inversion H as [|m L0 n w s m1 L1 Hg]; subst.
  - split; reflexivity.
  - simpl in Hg. discriminate.
Qed.

(* ------------------------------------------------------------------ *)
(** ** After the close event *)

Lemma reject_all_settlements : forall ws msg st,
  settlements (reject_all ws msg st) = settlements st ++ map (fun w => Reject w msg) ws.
Proof.
  unfold reject_all.
  induction ws as [|w ws IH]; intros msg st; cbn [fold_left map].
  - rewrite app_nil_r. reflexivity.
  - rewrite IH. unfold settle. cbn [settlements]. rewrite <- app_assoc. reflexivity.
Qed.

Lemma reject_all_fields : forall ws msg st,
  runningStatus (reject_all ws msg st) = runningStatus st
  /\ waiters (reject_all ws msg st) = waiters st
  /\ done_waiter (reject_all ws msg st) = done_waiter st
  /\ next_id (reject_all ws msg st) = next_id st
  /\ stderrChunks (reject_all ws msg st) = stderrChunks st.
Proof.
  unfold reject_all.
  induction ws as [|w ws IH]; intros msg st; [repeat split|].
  cbn [fold_left]. destruct (IH msg (settle (Reject w msg) st))
    as (E1 & E2 & E3 & E4 & E5).
  repeat split; assumption.
Qed.

(** The status the close handler stores, and the message [executeCommand]
    throws from then on. *)
Definition status_after_close (code : option Z) (st : state) : running_status :=
  match code with
  | Some 0 => QuitWithoutError
  | _ => QuitWithError (utf8_decode (List.concat (stderrChunks st)))
  end.

Definition execute_error_after_close (code : option Z) (st : state) : jsstr :=
  match code with
  | Some 0 => js "Compositor already quit"
  | _ => js "Compositor quit: " ++ utf8_decode (List.concat (stderrChunks st))
  end.

(** The message every waiter pending at the close event is rejected with. *)
Definition close_rejection (code : option Z) (st : state) : jsstr :=
  match code with
  | Some 0 => js "Compositor already quit"
  | _ => js "Compositor panicked: " ++ utf8_decode (List.concat (stderrChunks st))
  end.

Lemma on_close_fields : forall code st,
  runningStatus (on_close code st) = status_after_close code st
  /\ waiters (on_close code st) = []
  /\ done_waiter (on_close code st) = done_waiter st
  /\ next_id (on_close code st) = next_id st
  /\ (exists pre post,
        settlements (on_close code st)
        = settlements st ++ pre
          ++ map (fun w => Reject w (close_rejection code st)) (map_values (waiters st))
          ++ post
        /\ (forall s, In s (pre ++ post) ->
             done_waiter st = Some (settled_promise s))).
Proof.
  intros code st.
  assert (Hcase : forall (P : option Z -> Prop),
            P (Some 0) -> (forall c, c <> Some 0 -> P c) -> P code).
  { intros P H0 H1. destruct code as [[|p|p]|]; try apply H0; apply H1; discriminate. }
  apply (Hcase (fun code =>
    runningStatus (on_close code st) = status_after_close code st
    /\ waiters (on_close code st) = []
    /\ done_waiter (on_close code st) = done_waiter st
    /\ next_id (on_close code st) = next_id st
    /\ (exists pre post,
          settlements (on_close code st)
          = settlements st ++ pre
            ++ map (fun w => Reject w (close_rejection code st)) (map_values (waiters st))
            ++ post
          /\ (forall s, In s (pre ++ post) ->
               done_waiter st = Some (settled_promise s))))).
  - unfold on_close. simpl.
    set (st2 := match done_waiter st with
                | Some p => settle (Resolve p None) (set_runningStatus QuitWithoutError st)
                | None => set_runningStatus QuitWithoutError st
                end).
    destruct (reject_all_fields (map_values (waiters st)) (js "Compositor already quit") st2)
      as (E1 & E2 & E3 & E4 & E5).
    simpl. rewrite E1, E3, E4.
    unfold st2. destruct (done_waiter st) as [p|] eqn:Hd; simpl.
    + repeat split; try exact Hd.
      exists [Resolve p None], []. rewrite reject_all_settlements. simpl.
      rewrite app_nil_r, <- app_assoc. split; [reflexivity|].
      intros s [<-|[]]. reflexivity.
    + repeat split; try exact Hd.
      exists [], []. rewrite reject_all_settlements. simpl.
      rewrite app_nil_r. split; [reflexivity|]. intros s [].
  - intros c Hc. unfold on_close.
    assert (Hm : forall A (x y : A),
               match c with Some 0 => x | _ => y end = y)
      by (intros; destruct c as [[|p|p]|]; try reflexivity; contradiction).
    rewrite Hm.
    unfold status_after_close, close_rejection. rewrite !Hm.
    set (msg := js "Compositor panicked: " ++ utf8_decode (List.concat (stderrChunks st))).
    set (st1 := set_runningStatus (QuitWithError (utf8_decode (List.concat (stderrChunks st)))) st).
    destruct (reject_all_fields (map_values (waiters st)) msg st1)
      as (E1 & E2 & E3 & E4 & E5).
    simpl. rewrite E3.
    destruct (done_waiter st1) as [p|] eqn:Hd; simpl in Hd |- *.
    + rewrite E1, E4. simpl. repeat split; try congruence.
      exists [], [Reject p msg]. rewrite reject_all_settlements. simpl.
      rewrite <- app_assoc. split; [reflexivity|].
      intros s [<-|[]]. simpl. exact Hd.
    + rewrite E1, E4. simpl. repeat split; try congruence.
      exists [], []. rewrite reject_all_settlements. simpl.
      rewrite app_nil_r. split; [reflexivity|]. intros s [].
Qed.

Definition is_close (ev : event) : bool :=
  match ev with EvClose _ => true | _ => false end.

Definition no_close (evs : list event) : bool :=
  forallb (fun ev => negb (is_close ev)) evs.

(** The state a run ends in, [dflt] when it does not end. *)
Definition final_state (o : outcome) (dflt : state) : state :=
  match o with Done s => s | _ => dflt end.

Lemma quit_step : forall f st ev st',
  runningStatus st <> Running -> waiters st = [] -> is_close ev = false ->
  step f st ev = Done st' ->
  runningStatus st' = runningStatus st /\ waiters st' = []
  /\ exists l, settlements st' = settlements st ++ l.
Proof.
  intros f st ev st' Hr Hw Hc H.
  destruct ev as [d|d|k|c ps n| |]; simpl in Hc, H; try discriminate.
  - destruct (on_stdout_parser_effect _ _ _ _ H) as (E1 & _ & _ & _ & T).
    rewrite Hw in T. apply takes_nil in T. destruct T as [T1 T2].
    split; [exact E1|]. split; [exact T1|]. exists []. rewrite app_nil_r. exact T2.
  - injection H as <-. split; [reflexivity|]. split; [exact Hw|].
    exists []. rewrite app_nil_r. reflexivity.
  - unfold executeCommand in H. destruct (runningStatus st) eqn:E; [contradiction| |];
      injection H as <-; (split; [exact E|]); (split; [exact Hw|]);
      exists []; rewrite app_nil_r; reflexivity.
  - unfold waitForDone in H. simpl in H.
    destruct (runningStatus st) eqn:E; [contradiction| |];
      injection H as <-; (split; [first [exact E | reflexivity]|]); (split; [exact Hw|]);
      eexists; reflexivity.
  - unfold finishCommands in H. destruct (runningStatus st) eqn:E; [contradiction| |];
      injection H as <-; (split; [exact E|]); (split; [exact Hw|]);
      exists []; rewrite app_nil_r; reflexivity.
Qed.

Lemma quit_run : forall f evs st st2,
  runningStatus st <> Running -> waiters st = [] -> no_close evs = true ->
  run f st evs = Done st2 ->
  runningStatus st2 = runningStatus st /\ waiters st2 = []
  /\ exists l, settlements st2 = settlements st ++ l.
Proof.
  intros f evs. induction evs as [|ev evs IH]; intros st st2 Hr Hw Hn H.
  - simpl in H. injection H as <-. split; [reflexivity|]. split; [exact Hw|].
    exists []. rewrite app_nil_r. reflexivity.
  - simpl in Hn. apply andb_prop in Hn. destruct Hn as [Hc Hn].
    apply negb_true_iff in Hc. simpl in H.
    destruct (step f st ev) as [st1| |] eqn:Hs; try discriminate.
    destruct (quit_step f st ev st1 Hr Hw Hc Hs) as (E1 & W1 & l1 & S1).
    destruct (IH st1 st2 ltac:(congruence) W1 Hn H) as (E2 & W2 & l2 & S2).
    split; [congruence|]. split; [exact W2|].
    exists (l1 ++ l2). rewrite S2, S1, app_assoc. reflexivity.
Qed.

Lemma status_after_close_not_running : forall code st,
  status_after_close code st <> Running.
Proof. intros [[|p|p]|] st; discriminate. Qed.

(** C2: once the close event has fired, every waiter pending at that
    moment has been rejected, the registry stays empty through any later
    events (the close event fires once), and every later
    [executeCommand] throws synchronously: "Compositor already quit"
    after exit code 0, "Compositor quit: " followed by the stderr
    collected up to the close otherwise. *)
Theorem closed_registry_empty_execute_throws :
  forall fuel code st evs st2 command params nonce,
  no_close evs = true ->
  run fuel (on_close code st) evs = Done st2 ->
  (forall p, In p (map_values (waiters st)) ->
     In (Reject p (close_rejection code st)) (settlements st2))
  /\ waiters st2 = []
  /\ executeCommand command params nonce st2
     = (Throws (execute_error_after_close code st), st2).
Proof.
  intros fuel code st evs st2 command params nonce Hn H.
  destruct (on_close_fields code st) as (R & W & _ & _ & pre & post & S & _).
  destruct (quit_run fuel evs (on_close code st) st2
              ltac:(rewrite R; apply status_after_close_not_running) W Hn H)
    as (R2 & W2 & l & S2).
  split; [|split; [exact W2|]].
  - intros p Hp. rewrite S2, S.
    apply in_or_app. left. apply in_or_app. right. apply in_or_app. right.
    apply in_or_app. left.
    apply (in_map (fun w => Reject w (close_rejection code st))). exact Hp.
  - unfold executeCommand. rewrite R2, R.
    destruct code as [[|p|p]|]; reflexivity.
Qed.

Lemma closed_registry_empty_execute_throws_witness :
  let st0 := one_request (js "abc") in
  let evs := [EvStderr (js "late"); EvStdout (js "noise"); EvWaitForDone] in
  let st2 := final_state (run 10 (on_close (Some 1) st0) evs) st0 in
  (forall p, In p (map_values (waiters st0)) ->
     In (Reject p (close_rejection (Some 1) st0)) (settlements st2))
  /\ waiters st2 = []
  /\ executeCommand (js "ExtractFrame") (JObj []) (js "def") st2
     = (Throws (execute_error_after_close (Some 1) st0), st2).
Proof.
  intros st0 evs st2.
  apply (closed_registry_empty_execute_throws 10 (Some 1) st0 evs st2
           (js "ExtractFrame") (JObj []) (js "def")).
  - reflexivity.
  - vm_compute. reflexivity.
Defined.

(* ------------------------------------------------------------------ *)
(** ** The completion handle of [waitForDone] *)

(** Events after which [resolve] / [reject] still hold the same promise. *)
Definition keeps_done (ev : event) : bool :=
  match ev with EvClose _ | EvWaitForDone => false | _ => true end.

Lemma step_keeps_done : forall f st ev st',
  keeps_done ev = true -> step f st ev = Done st' ->
  done_waiter st' = done_waiter st.
Proof.
  intros f st ev st' Hk H.
  destruct ev as [d|d|k|c ps n| |]; simpl in Hk, H; try discriminate.
  - destruct (on_stdout_parser_effect _ _ _ _ H) as (_ & E & _). exact E.
  - injection H as <-. reflexivity.
  - unfold executeCommand in H. destruct (runningStatus st);
      injection H as <-; reflexivity.
  - unfold finishCommands in H. destruct (runningStatus st);
      injection H as <-; reflexivity.
Qed.

Lemma run_keeps_done : forall f evs st st',
  forallb keeps_done evs = true -> run f st evs = Done st' ->
  done_waiter st' = done_waiter st.
Proof.
  intros f evs. induction evs as [|ev evs IH]; intros st st' Hk H.
  - simpl in H. injection H as <-. reflexivity.
  - simpl in Hk. apply andb_prop in Hk. destruct Hk as [Hk1 Hk2].
    simpl in H. destruct (step f st ev) as [st1| |] eqn:Hs; try discriminate.
    rewrite (IH st1 st' Hk2 H). exact (step_keeps_done f st ev st1 Hk1 Hs).
Qed.

Lemma on_close_settles_done : forall st p,
  done_waiter st = Some p ->
  In (Resolve p None) (settlements (on_close (Some 0) st))
  /\ (forall code, code <> Some 0 ->
        In (Reject p (close_rejection code st)) (settlements (on_close code st))).
Proof.
  intros st p Hd. split.
  - unfold on_close. cbv beta iota zeta.
    change (done_waiter (set_runningStatus QuitWithoutError st)) with (done_waiter st).
    rewrite Hd. unfold set_waiters. cbn [settlements].
    rewrite reject_all_settlements. unfold settle. cbn [settlements].
    apply in_or_app. left. apply in_or_app. right. left. reflexivity.
  - intros code Hc. unfold on_close, close_rejection.
    assert (Hm : forall A (x y : A),
               match code with Some 0 => x | _ => y end = y)
      by (intros; destruct code as [[|q|q]|]; try reflexivity; contradiction).
    rewrite !Hm. cbv beta zeta.
    set (msg := js "Compositor panicked: " ++ utf8_decode (List.concat (stderrChunks st))).
    set (st1 := set_runningStatus (QuitWithError (utf8_decode (List.concat (stderrChunks st)))) st).
    destruct (reject_all_fields (map_values (waiters st)) msg st1) as (_ & _ & E3 & _).
    change (done_waiter (set_waiters [] (reject_all (map_values (waiters st)) msg st1)))
      with (done_waiter (reject_all (map_values (waiters st)) msg st1)).
    rewrite E3. change (done_waiter st1) with (done_waiter st). rewrite Hd.
    unfold settle. cbn [settlements].
    apply in_or_app. right. left. reflexivity.
Qed.

(** C8: [waitForDone] rejects at once with "Compositor already quit" after
    a clean exit and with "Compositor already quit: " followed by the
    stored stderr after a crash; called while running it settles nothing
    at once, and after any later events other than the close event and
    another [waitForDone], the close event resolves its promise (exit code
    0) or rejects it with "Compositor panicked: " followed by the stderr
    (any other exit). *)
Theorem waitForDone_outcomes : forall st,
  (runningStatus st = QuitWithoutError ->
     settlements (snd (waitForDone st))
     = settlements st ++ [Reject (fst (waitForDone st)) (js "Compositor already quit")])
  /\ (forall e, runningStatus st = QuitWithError e ->
     settlements (snd (waitForDone st))
     = settlements st ++ [Reject (fst (waitForDone st)) (js "Compositor already quit: " ++ e)])
  /\ (runningStatus st = Running ->
      settlements (snd (waitForDone st)) = settlements st
      /\ forall f evs st2,
         forallb keeps_done evs = true ->
         run f (snd (waitForDone st)) evs = Done st2 ->
         In (Resolve (fst (waitForDone st)) None) (settlements (on_close (Some 0) st2))
         /\ forall code, code <> Some 0 ->
            In (Reject (fst (waitForDone st))
                  (js "Compositor panicked: " ++ utf8_decode (List.concat (stderrChunks st2))))
               (settlements (on_close code st2))).
Proof.
  intros st. unfold waitForDone. cbn [fresh_id runningStatus].
  split; [|split].
  - intros E. rewrite E. reflexivity.
  - intros e E. rewrite E. reflexivity.
  - intros E. rewrite E. split; [reflexivity|].
    intros f evs st2 Hk H. cbn [fst snd] in H |- *.
    pose proof (run_keeps_done f evs _ st2 Hk H) as Hd. cbn in Hd.
    destruct (on_close_settles_done st2 _ Hd) as [H0 H1].
    split; [exact H0|].
    intros code Hc. specialize (H1 code Hc). unfold close_rejection in H1.
    destruct code as [[|q|q]|]; try contradiction; exact H1.
Qed.

Lemma waitForDone_outcomes_witness :
  let st0 := one_request (js "abc") in
  let evs := [EvStderr (js "boom"); EvStdout (js "noise");
              EvExecute (js "ExtractFrame") (JObj []) (js "def")] in
  let st2 := final_state (run 10 (snd (waitForDone st0)) evs) st0 in
  settlements (snd (waitForDone st0)) = settlements st0
  /\ In (Resolve (fst (waitForDone st0)) None) (settlements (on_close (Some 0) st2))
  /\ In (Reject (fst (waitForDone st0))
           (js "Compositor panicked: " ++ utf8_decode (List.concat (stderrChunks st2))))
        (settlements (on_close (Some 1) st2)).
Proof.
  intros st0 evs st2.
  destruct (proj2 (proj2 (waitForDone_outcomes st0)) eq_refl) as [H0 H1].
  destruct (H1 10%nat evs st2 eq_refl ltac:(vm_compute; reflexivity)) as [H2 H3].
  split; [exact H0|]. split; [exact H2|]. apply H3. discriminate.
Defined.

(* ------------------------------------------------------------------ *)
(** ** Promises reachable from the initial state *)

Local Open Scope nat_scope.

Definition promise_eq_dec (p q : promise) : {p = q} + {p <> q}.
Proof. decide equality; apply Nat.eq_dec. Defined.

Definition promise_id (p : promise) : nat :=
  match p with PCmd n => n | PWait n => n end.

(** The promises of commands settled so far, followed by those still
    waiting in the map. *)
Definition command_promises (st : state) : list promise :=
  map settled_promise (settlements st) ++ map_values (waiters st).

Definition reachable_inv (st : state) : Prop :=
  (forall n, count_occ promise_eq_dec (command_promises st) (PCmd n) <= 1)
  /\ (forall p, In p (command_promises st) -> promise_id p < next_id st)
  /\ (forall p, done_waiter st = Some p -> exists k, p = PWait k /\ k < next_id st).

Lemma map_delete_perm : forall n m w,
  map_get n m = Some w ->
  Permutation (map_values m) (w :: map_values (map_delete n m)).
Proof.
  intros n m. induction m as [|[k v] m IH]; intros w H; simpl in H |- *.
  - discriminate.
  - destruct (key_eqb n k).
    + injection H as <-. reflexivity.
    + simpl. rewrite (IH w H). apply perm_swap.
Qed.

Lemma takes_perm : forall m L m' L',
  takes m L m' L' ->
  Permutation (map settled_promise L ++ map_values m)
              (map settled_promise L' ++ map_values m').
Proof.
  intros m L m' L' H. induction H as [m L|m L n w s m' L' Hg Hs T IH].
  - reflexivity.
  - rewrite <- IH. rewrite (map_delete_perm n m w Hg).
    rewrite map_app, <- app_assoc. simpl. rewrite Hs. reflexivity.
Qed.

Lemma map_set_count : forall k v m x,
  count_occ promise_eq_dec (map_values (map_set k v m)) x
  <= count_occ promise_eq_dec (v :: map_values m) x.
Proof.
  intros k v m x. induction m as [|[k' v'] m IH]; simpl.
  - lia.
  - destruct (key_eqb k k'); simpl.
    + destruct (promise_eq_dec v' x), (promise_eq_dec v x); lia.
    + simpl in IH. destruct (promise_eq_dec v' x), (promise_eq_dec v x); lia.
Qed.

Lemma map_set_in : forall k v m x,
  In x (map_values (map_set k v m)) -> x = v \/ In x (map_values m).
Proof.
  intros k v m x. induction m as [|[k' v'] m IH]; simpl.
  - intros [H|[]]. left. congruence.
  - destruct (key_eqb k k'); simpl.
    + intros [H|H]; [left; congruence|right; right; exact H].
    + intros [H|H]; [right; left; exact H|].
      destruct (IH H) as [E|E]; [left; exact E|right; right; exact E].
Qed.

Lemma reachable_inv_initial : reachable_inv initial_state.
Proof.
  split; [|split].
  - intros n. simpl. lia.
  - intros p [].
  - intros p H. discriminate.
Qed.

(** Settlements of [waitForDone]'s promises do not count for commands. *)
Lemma count_wait_settlements : forall l n k,
  (forall s, In s l -> settled_promise s = PWait k) ->
  count_occ promise_eq_dec (map settled_promise l) (PCmd n) = 0.
Proof.
  intros l n k H. induction l as [|s l IH]; simpl; [reflexivity|].
  rewrite (H s (or_introl eq_refl)).
  destruct (promise_eq_dec (PWait k) (PCmd n)); [discriminate|].
  apply IH. intros s' Hs'. apply H. right. exact Hs'.
Qed.

Lemma map_reject_settled : forall ws msg,
  map settled_promise (map (fun w => Reject w msg) ws) = ws.
Proof.
  intros ws msg. rewrite map_map. simpl. apply map_id.
Qed.

Lemma reachable_inv_step : forall f st ev st',
  reachable_inv st -> step f st ev = Done st' -> reachable_inv st'.
Proof.
  intros f st ev st' [IA [IB IC]] H.
  destruct ev as [d|d|code|c ps nonce| |]; simpl in H.
  - destruct (on_stdout_parser_effect _ _ _ _ H) as (E1 & E2 & E3 & E4 & T).
    pose proof (takes_perm _ _ _ _ T) as P.
    change (map settled_promise (settlements st) ++ map_values (waiters st))
      with (command_promises st) in P.
    change (map settled_promise (settlements st') ++ map_values (waiters st'))
      with (command_promises st') in P.
    split; [|split].
    + intros n. rewrite <- (proj1 (Permutation_count_occ promise_eq_dec _ _) P). apply IA.
    + intros p Hp. rewrite E3. apply IB. apply Permutation_in with (1 := Permutation_sym P).
      exact Hp.
    + intros p Hp. rewrite E3. apply IC. congruence.
  - injection H as <-. split; [exact IA|]. split; [exact IB|]. exact IC.
  - injection H as <-.
    destruct (on_close_fields code st) as (R & W & D & N & pre & post & S & Hpp).
    assert (Hcp : Permutation (command_promises (on_close code st))
                    (command_promises st ++ map settled_promise (pre ++ post))).
    { unfold command_promises. rewrite S, W. simpl.
      rewrite !map_app, map_reject_settled, !app_nil_r.
      rewrite <- !app_assoc. apply Permutation_app_head.
      apply Permutation_app_swap_app. }
    assert (Hdone : forall s, In s (pre ++ post) ->
                    exists k, settled_promise s = PWait k /\ k < next_id st).
    { intros s Hs. destruct (IC _ (Hpp s Hs)) as [k [Ek Hk]].
      exists k. split; [exact Ek|exact Hk]. }
    split; [|split].
    + intros n. rewrite (proj1 (Permutation_count_occ promise_eq_dec _ _) Hcp).
      rewrite count_occ_app.
      destruct (done_waiter st) as [p|] eqn:Hd.
      * destruct (IC p eq_refl) as [k [-> _]].
        rewrite (count_wait_settlements (pre ++ post) n k).
        -- specialize (IA n). lia.
        -- intros s Hs. pose proof (Hpp s Hs) as E. congruence.
      * destruct (pre ++ post) as [|s l] eqn:El.
        -- simpl. specialize (IA n). lia.
        -- pose proof (Hpp s (or_introl eq_refl)). congruence.
    + intros p Hp. rewrite N.
      apply (Permutation_in _ Hcp) in Hp. apply in_app_or in Hp.
      destruct Hp as [Hp|Hp]; [apply IB; exact Hp|].
      apply in_map_iff in Hp. destruct Hp as [s [<- Hs]].
      destruct (Hdone s Hs) as [k [-> Hk]]. exact Hk.
    + intros p Hp. rewrite N. rewrite D in Hp. apply IC. exact Hp.
  - unfold executeCommand in H. destruct (runningStatus st) eqn:Er.
    + cbn [fresh_id] in H. injection H as <-.
      set (k := next_id st) in *.
      assert (Hk : forall x, In x (command_promises st) -> x <> PCmd k).
      { intros x Hx Ex. specialize (IB x Hx). rewrite Ex in IB. simpl in IB. lia. }
      unfold command_promises in *. unfold reachable_inv, command_promises, set_waiters, write_stdin.
      simpl.
      split; [|split].
      * intros n. rewrite count_occ_app.
        pose proof (map_set_count nonce (PCmd k) (waiters st) (PCmd n)) as Hc.
        specialize (IA n). rewrite count_occ_app in IA.
        destruct (promise_eq_dec (PCmd k) (PCmd n)) as [Ekn|Ekn].
        -- rewrite count_occ_cons_eq in Hc by exact Ekn.
           rewrite <- Ekn in Hc, IA |- *.
           assert (H1 : count_occ promise_eq_dec (map settled_promise (settlements st))
                          (PCmd k) = 0).
           { apply count_occ_not_In. intros Hin.
             apply (Hk (PCmd k)); [apply in_or_app; left; exact Hin|reflexivity]. }
           assert (H2 : count_occ promise_eq_dec (map_values (waiters st)) (PCmd k) = 0).
           { apply count_occ_not_In. intros Hin.
             apply (Hk (PCmd k)); [apply in_or_app; right; exact Hin|reflexivity]. }
           lia.
        -- rewrite count_occ_cons_neq in Hc by exact Ekn. lia.
      * intros p Hp. apply in_app_or in Hp. destruct Hp as [Hp|Hp].
        -- assert (promise_id p < k) by (apply IB; apply in_or_app; left; exact Hp). lia.
        -- destruct (map_set_in _ _ _ _ Hp) as [->|Hp'].
           ++ simpl. lia.
           ++ assert (promise_id p < k) by (apply IB; apply in_or_app; right; exact Hp'). lia.
      * intros p Hp. destruct (IC p Hp) as [k' [E Hk']]. exists k'. split; [exact E|lia].
    + injection H as <-. split; [exact IA|]. split; [exact IB|]. exact IC.
    + injection H as <-. split; [exact IA|]. split; [exact IB|]. exact IC.
  - unfold waitForDone in H. cbn [fresh_id runningStatus] in H.
    set (k := next_id st) in *.
    destruct (runningStatus st); injection H as <-;
      unfold command_promises in *;
      unfold reachable_inv, command_promises, set_done_waiter, settle; simpl.
    + split; [exact IA|]. split.
      * intros p Hp. specialize (IB p Hp). lia.
      * intros p Hp. injection Hp as <-. exists k. split; [reflexivity|lia].
    + split; [|split].
      * intros n. rewrite map_app, <- app_assoc. simpl. specialize (IA n).
        rewrite count_occ_app in IA |- *. simpl.
        destruct (promise_eq_dec (PWait k) (PCmd n)); [discriminate|]. lia.
      * intros p Hp. rewrite map_app, <- app_assoc in Hp. apply in_app_or in Hp.
        destruct Hp as [Hp|[<-|Hp]].
        -- assert (promise_id p < k) by (apply IB; apply in_or_app; left; exact Hp). lia.
        -- simpl. lia.
        -- assert (promise_id p < k) by (apply IB; apply in_or_app; right; exact Hp). lia.
      * intros p Hp. destruct (IC p Hp) as [k' [E Hk']]. exists k'. split; [exact E|lia].
    + split; [|split].
      * intros n. rewrite map_app, <- app_assoc. simpl. specialize (IA n).
        rewrite count_occ_app in IA |- *. simpl.
        destruct (promise_eq_dec (PWait k) (PCmd n)); [discriminate|]. lia.
      * intros p Hp. rewrite map_app, <- app_assoc in Hp. apply in_app_or in Hp.
        destruct Hp as [Hp|[<-|Hp]].
        -- assert (promise_id p < k) by (apply IB; apply in_or_app; left; exact Hp). lia.
        -- simpl. lia.
        -- assert (promise_id p < k) by (apply IB; apply in_or_app; right; exact Hp). lia.
      * intros p Hp. destruct (IC p Hp) as [k' [E Hk']]. exists k'. split; [exact E|lia].
  - unfold finishCommands in H.
    destruct (runningStatus st); injection H as <-;
      (split; [exact IA|]); (split; [exact IB|]); exact IC.
Qed.

Lemma reachable_inv_run : forall f evs st st',
  reachable_inv st -> run f st evs = Done st' -> reachable_inv st'.
Proof.
  intros f evs. induction evs as [|ev evs IH]; intros st st' I H.
  - simpl in H. injection H as <-. exact I.
  - simpl in H. destruct (step f st ev) as [st1| |] eqn:Hs; try discriminate.
    exact (IH st1 st' (reachable_inv_step f st ev st1 I Hs) H).
Qed.

(** C5: along any run from the initial state, the promise of each
    [executeCommand] call is settled (resolved or rejected) at most once,
    whatever frames arrive (duplicates included) and whether the close
    event fires. *)
Theorem command_settled_at_most_once : forall fuel evs st n,
  run fuel initial_state evs = Done st ->
  count_occ promise_eq_dec (map settled_promise (settlements st)) (PCmd n) <= 1.
Proof.
  intros fuel evs st n H.
  destruct (reachable_inv_run fuel evs initial_state st reachable_inv_initial H)
    as [IA _].
  specialize (IA n). unfold command_promises in IA. rewrite count_occ_app in IA. lia.
Qed.

Lemma command_settled_at_most_once_witness :
  let evs := [EvExecute (js "ExtractFrame") (JObj []) (js "abc");
              EvStdout (success_frame (js "abc") (js "foo"));
              EvStdout (success_frame (js "abc") (js "foo"));
              EvClose (Some 1%Z)] in
  count_occ promise_eq_dec
    (map settled_promise (settlements (final_state (run 80 initial_state evs) initial_state)))
    (PCmd 0) <= 1.
Proof.
  intros evs.
  apply (command_settled_at_most_once 80 evs
           (final_state (run 80 initial_state evs) initial_state) 0).
  vm_compute. reflexivity.
Defined.

(** Which promises a step can add: one of the map or the settlements
    already, the completion handle, or a fresh one. *)
Lemma step_shape : forall f st ev st',
  step f st ev = Done st' ->
  next_id st <= next_id st'
  /\ (forall p, In p (command_promises st') ->
        In p (command_promises st) \/ done_waiter st = Some p
        \/ (next_id st <= promise_id p /\ promise_id p < next_id st'))
  /\ (forall p, done_waiter st' = Some p ->
        done_waiter st = Some p
        \/ (next_id st <= promise_id p /\ promise_id p < next_id st')).
Proof.
  intros f st ev st' H.
  destruct ev as [d|d|code|c ps nonce| |]; simpl in H.
  - destruct (on_stdout_parser_effect _ _ _ _ H) as (E1 & E2 & E3 & E4 & T).
    pose proof (takes_perm _ _ _ _ T) as P.
    split; [lia|]. split.
    + intros p Hp. left. unfold command_promises in *.
      apply (Permutation_in _ (Permutation_sym P)). exact Hp.
    + intros p Hp. left. congruence.
  - injection H as <-. split; [apply Nat.le_refl|]. split; intros p Hp; left; exact Hp.
  - injection H as <-.
    destruct (on_close_fields code st) as (R & W & D & N & pre & post & S & Hpp).
    split; [lia|]. split.
    + intros p Hp. unfold command_promises in Hp. rewrite S, W in Hp.
      rewrite !map_app, map_reject_settled in Hp. simpl in Hp. rewrite app_nil_r in Hp.
      repeat (apply in_app_or in Hp; destruct Hp as [Hp|Hp]).
      * left. apply in_or_app. left. exact Hp.
      * right. left. apply in_map_iff in Hp. destruct Hp as [s [<- Hs]].
        apply Hpp. apply in_or_app. left. exact Hs.
      * left. apply in_or_app. right. exact Hp.
      * right. left. apply in_map_iff in Hp. destruct Hp as [s [<- Hs]].
        apply Hpp. apply in_or_app. right. exact Hs.
    + intros p Hp. left. congruence.
  - unfold executeCommand in H. destruct (runningStatus st).
    + cbn [fresh_id] in H. injection H as <-.
      unfold command_promises, set_waiters, write_stdin. simpl.
      split; [lia|]. split.
      * intros p Hp. apply in_app_or in Hp. destruct Hp as [Hp|Hp].
        -- left. apply in_or_app. left. exact Hp.
        -- destruct (map_set_in _ _ _ _ Hp) as [->|Hp'].
           ++ right. right. simpl. lia.
           ++ left. apply in_or_app. right. exact Hp'.
      * intros p Hp. left. exact Hp.
    + injection H as <-. split; [lia|]. split; intros p Hp; left; exact Hp.
    + injection H as <-. split; [lia|]. split; intros p Hp; left; exact Hp.
  - unfold waitForDone in H. cbn [fresh_id runningStatus] in H.
    destruct (runningStatus st); injection H as <-;
      unfold command_promises, set_done_waiter, settle; simpl.
    + split; [lia|]. split.
      * intros p Hp. left. exact Hp.
      * intros p Hp. injection Hp as <-. right. simpl. lia.
    + split; [lia|]. split.
      * intros p Hp. rewrite map_app, <- app_assoc in Hp. apply in_app_or in Hp.
        destruct Hp as [Hp|[<-|Hp]].
        -- left. apply in_or_app. left. exact Hp.
        -- right. right. simpl. lia.
        -- left. apply in_or_app. right. exact Hp.
      * intros p Hp. left. exact Hp.
    + split; [lia|]. split.
      * intros p Hp. rewrite map_app, <- app_assoc in Hp. apply in_app_or in Hp.
        destruct Hp as [Hp|[<-|Hp]].
        -- left. apply in_or_app. left. exact Hp.
        -- right. right. simpl. lia.
        -- left. apply in_or_app. right. exact Hp.
      * intros p Hp. left. exact Hp.
  - unfold finishCommands in H.
    destruct (runningStatus st); injection H as <-;
      (split; [apply Nat.le_refl|]); (split; intros p Hp; left; exact Hp).
Qed.

(** A promise nobody holds any more: not in the map, not settled, not the
    completion handle, and older than every promise still to be made. *)
Definition orphaned (p : promise) (st : state) : Prop :=
  promise_id p < next_id st /\ ~ In p (command_promises st)
  /\ done_waiter st <> Some p.

Lemma orphaned_step : forall f st ev st' p,
  orphaned p st -> step f st ev = Done st' -> orphaned p st'.
Proof.
  intros f st ev st' p [Hid [Hin Hd]] H.
  destruct (step_shape f st ev st' H) as (Hle & Hc & Hw).
  split; [lia|]. split.
  - intros Hp. destruct (Hc p Hp) as [E|[E|E]]; [contradiction|contradiction|lia].
  - intros Hp. destruct (Hw p Hp) as [E|E]; [contradiction|lia].
Qed.

Lemma orphaned_run : forall f evs st st' p,
  orphaned p st -> run f st evs = Done st' -> orphaned p st'.
Proof.
  intros f evs. induction evs as [|ev evs IH]; intros st st' p O H.
  - simpl in H. injection H as <-. exact O.
  - simpl in H. destruct (step f st ev) as [st1| |] eqn:Hs; try discriminate.
    exact (IH st1 st' p (orphaned_step f st ev st1 p O Hs) H).
Qed.

(** The completion handle [p] is still held and still unsettled. *)
Definition pending_handle (p : promise) (st : state) : Prop :=
  done_waiter st = Some p /\ ~ In p (command_promises st) /\ promise_id p < next_id st.

Lemma handle_step : forall f st ev st' k,
  is_close ev = false ->
  pending_handle (PWait k) st \/ orphaned (PWait k) st ->
  step f st ev = Done st' ->
  pending_handle (PWait k) st' \/ orphaned (PWait k) st'.
Proof.
  intros f st ev st' k Hc [[Hd [Hin Hid]]|O] H; [|right; exact (orphaned_step f st ev st' _ O H)].
  destruct ev as [d|d|code|c ps n| |]; simpl in Hc, H; try discriminate.
  - left. destruct (on_stdout_parser_effect _ _ _ _ H) as (_ & E2 & E3 & _ & T).
    split; [congruence|]. split; [|rewrite E3; exact Hid].
    intros Hp. apply Hin. unfold command_promises in Hp |- *.
    exact (Permutation_in _ (Permutation_sym (takes_perm _ _ _ _ T)) Hp).
  - injection H as <-. left. split; [exact Hd|]. split; [exact Hin|exact Hid].
  - injection H as <-. left. unfold executeCommand.
    destruct (runningStatus st); simpl; try (split; [exact Hd|split; [exact Hin|exact Hid]]).
    split; [exact Hd|]. split; [|simpl in Hid |- *; lia].
    unfold command_promises. simpl. intros Hp. apply in_app_or in Hp.
    destruct Hp as [Hp|Hp].
    + apply Hin. unfold command_promises. apply in_or_app. left. exact Hp.
    + destruct (map_set_in _ _ _ _ Hp) as [E|E]; [discriminate|].
      apply Hin. unfold command_promises. apply in_or_app. right. exact E.
  - injection H as <-. unfold waitForDone. simpl.
    destruct (runningStatus st).
    + right. split; [simpl in Hid |- *; lia|]. split; [exact Hin|].
      intros E. injection E as E. simpl in Hid. lia.
    + left. split; [exact Hd|]. split; [|simpl in Hid |- *; lia].
      unfold command_promises. simpl. rewrite map_app. simpl.
      intros Hp. apply in_app_or in Hp. destruct Hp as [Hp|Hp].
      * apply in_app_or in Hp. destruct Hp as [Hp|[E|[]]].
        -- apply Hin. apply in_or_app. left. exact Hp.
        -- injection E as E. simpl in Hid. lia.
      * apply Hin. apply in_or_app. right. exact Hp.
    + left. split; [exact Hd|]. split; [|simpl in Hid |- *; lia].
      unfold command_promises. simpl. rewrite map_app. simpl.
      intros Hp. apply in_app_or in Hp. destruct Hp as [Hp|Hp].
      * apply in_app_or in Hp. destruct Hp as [Hp|[E|[]]].
        -- apply Hin. apply in_or_app. left. exact Hp.
        -- injection E as E. simpl in Hid. lia.
      * apply Hin. apply in_or_app. right. exact Hp.
  - injection H as <-. left. unfold finishCommands.
    destruct (runningStatus st); split; try exact Hd; split; try exact Hin; exact Hid.
Qed.

Lemma handle_run : forall f evs st st' k,
  no_close evs = true ->
  pending_handle (PWait k) st \/ orphaned (PWait k) st ->
  run f st evs = Done st' ->
  pending_handle (PWait k) st' \/ orphaned (PWait k) st'.
Proof.
  intros f evs. induction evs as [|ev evs IH]; intros st st' k Hn I H.
  - simpl in H. injection H as <-. exact I.
  - simpl in Hn. apply andb_prop in Hn. destruct Hn as [Hc Hn].
    apply negb_true_iff in Hc.
    simpl in H. destruct (step f st ev) as [st1| |] eqn:Hs; try discriminate.
    exact (IH st1 st' k Hn (handle_step f st ev st1 k Hc I Hs) H).
Qed.

Lemma step_not_running : forall f st ev st',
  runningStatus st <> Running -> step f st ev = Done st' -> runningStatus st' <> Running.
Proof.
  intros f st ev st' Hr H.
  destruct ev as [d|d|code|c ps n| |]; simpl in H.
  - destruct (on_stdout_parser_effect _ _ _ _ H) as (E1 & _). congruence.
  - injection H as <-. exact Hr.
  - injection H as <-. rewrite (proj1 (on_close_fields code st)).
    apply status_after_close_not_running.
  - injection H as <-. unfold executeCommand.
    destruct (runningStatus st) eqn:E; simpl;
      first [exact Hr | exfalso; exact (Hr E) | exfalso; apply Hr; reflexivity
             | rewrite E; discriminate | discriminate].
  - injection H as <-. unfold waitForDone. simpl.
    destruct (runningStatus st) eqn:E; simpl;
      first [exact Hr | exfalso; exact (Hr E) | exfalso; apply Hr; reflexivity
             | rewrite E; discriminate | discriminate].
  - injection H as <-. unfold finishCommands.
    destruct (runningStatus st) eqn:E; simpl;
      first [exact Hr | exfalso; exact (Hr E) | exfalso; apply Hr; reflexivity
             | rewrite E; discriminate | discriminate].
Qed.

Lemma run_not_running : forall f evs st st',
  runningStatus st <> Running -> run f st evs = Done st' -> runningStatus st' <> Running.
Proof.
  intros f evs. induction evs as [|ev evs IH]; intros st st' Hr H.
  - simpl in H. injection H as <-. exact Hr.
  - simpl in H. destruct (step f st ev) as [st1| |] eqn:Hs; try discriminate.
    exact (IH st1 st' (step_not_running f st ev st1 Hr Hs) H).
Qed.

(** A run that ends with the compositor still running had no close event. *)
Lemma running_run_no_close : forall f evs st st',
  run f st evs = Done st' -> runningStatus st' = Running -> no_close evs = true.
Proof.
  intros f evs. induction evs as [|ev evs IH]; intros st st' H Hr; [reflexivity|].
  simpl in H. destruct (step f st ev) as [st1| |] eqn:Hs; try discriminate.
  simpl. rewrite (IH st1 st' H Hr).
  destruct ev as [d|d|code|c ps n| |]; try reflexivity.
  exfalso. simpl in Hs. injection Hs as <-.
  refine (run_not_running f evs _ st' _ H Hr).
  rewrite (proj1 (on_close_fields code st)). apply status_after_close_not_running.
Qed.

Lemma run_next_id_mono : forall f evs st st',
  run f st evs = Done st' -> next_id st <= next_id st'.
Proof.
  intros f evs. induction evs as [|ev evs IH]; intros st st' H.
  - simpl in H. injection H as <-. lia.
  - simpl in H. destruct (step f st ev) as [st1| |] eqn:Hs; try discriminate.
    pose proof (proj1 (step_shape f st ev st1 Hs)). specialize (IH st1 st' H). lia.
Qed.

(** C10: when [waitForDone] is called a second time while the compositor
    still runs, after any events since the first call (in a state reached
    from the initial one), the second call replaces the completion handle:
    the first promise is never settled, neither by the events in between
    nor by any later ones, while the close event settles the second one
    (resolved on exit code 0, rejected otherwise) provided no other
    [waitForDone] call came in between. *)
Theorem second_waitForDone_orphans_first : forall f0 evs0 st f1 mid st1,
  run f0 initial_state evs0 = Done st ->
  runningStatus st = Running ->
  run f1 (snd (waitForDone st)) mid = Done st1 ->
  runningStatus st1 = Running ->
  let p1 := fst (waitForDone st) in
  let p2 := fst (waitForDone st1) in
  let st2 := snd (waitForDone st1) in
  p1 <> p2
  /\ (forall f evs st3, run f st2 evs = Done st3 ->
        ~ In p1 (map settled_promise (settlements st3)))
  /\ (forall f evs st3, forallb keeps_done evs = true -> run f st2 evs = Done st3 ->
        In (Resolve p2 None) (settlements (on_close (Some 0%Z) st3))
        /\ forall code, code <> Some 0%Z ->
           In (Reject p2 (close_rejection code st3)) (settlements (on_close code st3))).
Proof.
  intros f0 evs0 st f1 mid st1 H Hr H1 Hr1 p1 p2 st2.
  destruct (reachable_inv_run f0 evs0 initial_state st reachable_inv_initial H)
    as [_ [IB _]].
  assert (E1 : p1 = PWait (next_id st))
    by (unfold p1, waitForDone; simpl; rewrite Hr; reflexivity).
  assert (Pend : pending_handle p1 (snd (waitForDone st))).
  { unfold waitForDone; simpl; rewrite Hr. rewrite E1.
    split; [reflexivity|]. split; [|simpl; lia].
    intros Hp. specialize (IB _ Hp). simpl in IB. lia. }
  rewrite E1 in Pend.
  pose proof (handle_run f1 mid _ st1 (next_id st)
                (running_run_no_close f1 mid _ st1 H1 Hr1) (or_introl Pend) H1) as PO.
  pose proof (run_next_id_mono f1 mid _ st1 H1) as Hmono.
  assert (N0 : next_id (snd (waitForDone st)) = S (next_id st))
    by (unfold waitForDone; simpl; rewrite Hr; reflexivity).
  rewrite N0 in Hmono.
  assert (E2 : p2 = PWait (next_id st1))
    by (unfold p2, waitForDone; simpl; rewrite Hr1; reflexivity).
  assert (D2 : done_waiter st2 = Some p2)
    by (rewrite E2; unfold st2, waitForDone; simpl; rewrite Hr1; reflexivity).
  assert (N2 : next_id st2 = S (next_id st1))
    by (unfold st2, waitForDone; simpl; rewrite Hr1; reflexivity).
  assert (C2 : command_promises st2 = command_promises st1)
    by (unfold st2, waitForDone; simpl; rewrite Hr1; reflexivity).
  assert (O : orphaned p1 st2).
  { assert (Hin : ~ In (PWait (next_id st)) (command_promises st1))
      by (destruct PO as [[_ [X _]]|[_ [X _]]]; exact X).
    rewrite E1. split; [|split].
    - rewrite N2. simpl. lia.
    - rewrite C2. exact Hin.
    - rewrite D2, E2. intros E. injection E. lia. }
  split; [|split].
  - rewrite E1, E2. intros E. injection E. lia.
  - intros f evs st3 H3 Hp.
    destruct (orphaned_run f evs st2 st3 p1 O H3) as [_ [Hn _]].
    apply Hn. unfold command_promises. apply in_or_app. left. exact Hp.
  - intros f evs st3 Hk H3.
    pose proof (run_keeps_done f evs st2 st3 Hk H3) as Hd. rewrite D2 in Hd.
    exact (on_close_settles_done st3 p2 Hd).
Qed.

Lemma second_waitForDone_orphans_first_witness :
  let evs0 := [EvExecute (js "ExtractFrame") (JObj []) (js "abc")] in
  let st := final_state (run 10 initial_state evs0) initial_state in
  let mid := [EvStdout (success_frame (js "abc") (js "foo")); EvStderr (js "warn");
              EvFinishCommands] in
  let st1 := final_state (run 80 (snd (waitForDone st)) mid) initial_state in
  let st2 := snd (waitForDone st1) in
  let evs := [EvStdout (js "late"); EvClose (Some 0%Z)] in
  fst (waitForDone st) <> fst (waitForDone st1)
  /\ ~ In (fst (waitForDone st))
         (map settled_promise (settlements (final_state (run 80 st2 evs) st2)))
  /\ In (Resolve (fst (waitForDone st1)) None)
        (settlements (on_close (Some 0%Z) (final_state (run 80 st2 [EvStdout (js "late")]) st2))).
Proof.
  intros evs0 st mid st1 st2 evs.
  destruct (second_waitForDone_orphans_first 10 evs0 st 80 mid st1
              ltac:(vm_compute; reflexivity) ltac:(vm_compute; reflexivity)
              ltac:(vm_compute; reflexivity) ltac:(vm_compute; reflexivity))
    as [H1 [H2 H3]].
  split; [exact H1|]. split.
  - apply (H2 80 evs). vm_compute. reflexivity.
  - apply (H3 80 [EvStdout (js "late")]); [reflexivity|]. vm_compute. reflexivity.
Defined.

(* ------------------------------------------------------------------ *)
(** ** Further properties of the supervisor *)

Local Open Scope Z_scope.

Lemma frame_header_app : forall nonce status P,
  frame nonce status P = frame_header nonce status (Z.of_nat (List.length P)) ++ P.
Proof. intros. unfold frame, frame_header. repeat rewrite <- app_assoc. reflexivity. Qed.

Lemma header_shape : forall nonce status len X,
  frame_header nonce status len ++ X
  = [] ++ separator ++ nonce ++ [colon] ++ decimal_string len ++ [colon]
    ++ status ++ [colon] ++ X.
Proof. intros. unfold frame_header. repeat rewrite <- app_assoc. reflexivity. Qed.

Lemma length_frame_header : forall nonce status len,
  List.length (frame_header nonce status len)
  = (16 + List.length nonce + 1 + List.length (decimal_string len) + 1
     + List.length status + 1)%nat.
Proof. intros. unfold frame_header. repeat rewrite length_app. simpl. lia. Qed.

Lemma index_of_separator_0 : index_of ([] ++ separator) separator = Some 0%nat.
Proof. reflexivity. Qed.

Lemma processInput_partial : forall f st pre nonce lenS statS Q n,
  outputBuffer st
  = pre ++ separator ++ nonce ++ [colon] ++ lenS ++ [colon] ++ statS ++ [colon] ++ Q ->
  index_of (pre ++ separator) separator = Some (List.length pre) ->
  no_colon nonce -> no_colon lenS -> no_colon statS ->
  (List.length nonce < f)%nat -> (List.length lenS < f)%nat ->
  (List.length statS < f)%nat ->
  js_Number lenS = NumInt n ->
  Z.of_nat (List.length Q) < n ->
  processInput (S f) st = Done (set_missingData (Some (n - Z.of_nat (List.length Q))) st).
Proof.
  intros f st pre nonce lenS statS Q n HB Hidx Hn Hl Hs Hfn Hfl Hfs Hlen HQ.
  pose proof (read_header f (pre ++ separator) nonce lenS statS Q
                Hn Hl Hs Hfn Hfl Hfs) as [R1 [R2 R3]].
  repeat rewrite <- app_assoc in R1, R2, R3.
  rewrite length_app in R1, R2, R3.
  cbn [processInput]. rewrite HB, index_of_app by exact Hidx.
  rewrite R1, R2, R3, Hlen.
  set (X := pre ++ separator ++ nonce ++ [colon] ++ lenS ++ [colon] ++ statS ++ [colon]).
  assert (HX : pre ++ separator ++ nonce ++ [colon] ++ lenS ++ [colon] ++ statS
               ++ [colon] ++ Q = X ++ Q)
    by (unfold X; repeat rewrite <- app_assoc; reflexivity).
  assert (HlX : List.length X
                = S (S (S (List.length pre + List.length separator
                           + List.length nonce) + List.length lenS)
                     + List.length statS))
    by (unfold X; repeat rewrite length_app; simpl; lia).
  rewrite HX.
  match goal with
  | |- context [if ?a <? n then _ else _] =>
      replace (a <? n) with true
        by (symmetry; apply Z.ltb_lt; rewrite length_app in *; lia);
      replace a with (Z.of_nat (List.length Q)) by (rewrite length_app in *; lia)
  end.
  reflexivity.
Qed.

Lemma processInput_empty : forall f s,
  outputBuffer s = [] -> processInput (S f) s = Done s.
Proof. intros f s H. cbn [processInput]. rewrite H. reflexivity. Qed.

Lemma fields_log_if : forall (b : bool) m st,
  unprocessedBuffers (if b then log_verbose m st else st) = unprocessedBuffers st
  /\ runningStatus (if b then log_verbose m st else st) = runningStatus st
  /\ done_waiter (if b then log_verbose m st else st) = done_waiter st
  /\ next_id (if b then log_verbose m st else st) = next_id st
  /\ stderrChunks (if b then log_verbose m st else st) = stderrChunks st
  /\ stdin (if b then log_verbose m st else st) = stdin st.
Proof. intros [|] m st; repeat split. Qed.

(** One [processInput] on a buffer that holds the header of a success
    frame and the first bytes [Q] of its payload [P = Q ++ R]: a shortfall
    is recorded while [R] is not empty, the waiter is resolved with [P]
    once it is. *)
Lemma process_prefix : forall f s nonce P Q R w,
  outputBuffer s = frame_header nonce (js "0") (Z.of_nat (List.length P)) ++ Q ->
  P = Q ++ R ->
  no_colon nonce -> Z.of_nat (List.length P) < 2 ^ 53 ->
  (List.length (frame_header nonce (js "0") (Z.of_nat (List.length P)) ++ P) < f)%nat ->
  map_get nonce (waiters s) = Some w ->
  exists s', processInput f s = Done s'
  /\ ((R <> []
       /\ s' = set_missingData (Some (Z.of_nat (List.length P)
                                      - Z.of_nat (List.length Q))) s)
      \/ (R = []
          /\ settlements s' = settlements s ++ [Resolve w (Some P)]
          /\ waiters s' = map_delete nonce (waiters s)
          /\ missingData s' = None /\ outputBuffer s' = []
          /\ unprocessedBuffers s' = unprocessedBuffers s
          /\ runningStatus s' = runningStatus s /\ done_waiter s' = done_waiter s
          /\ next_id s' = next_id s /\ stderrChunks s' = stderrChunks s
          /\ stdin s' = stdin s)).
Proof.
  intros f s nonce P Q R w HB HP Hn HP53 Hf Hg.
  rewrite length_app, length_frame_header in Hf.
  assert (Hd : no_colon (decimal_string (Z.of_nat (List.length P))))
    by (apply no_colon_digits, decimal_string_digits; lia).
  assert (HN : js_Number (decimal_string (Z.of_nat (List.length P)))
               = NumInt (Z.of_nat (List.length P)))
    by (apply js_Number_decimal_string; lia).
  destruct f as [|f]; [lia|].
  rewrite header_shape in HB.
  destruct R as [|r R].
  - rewrite app_nil_r in HP. subst Q.
    rewrite <- (app_nil_r P) in HB at 2.
    rewrite (processInput_frame f s [] nonce _ (js "0") P [] StatusSuccess HB
               index_of_separator_0 Hn Hd no_colon_0)
      by (try assumption; try reflexivity; simpl; lia).
    rewrite (onMessage_registered StatusSuccess nonce P s w Hg). cbv beta iota zeta.
    destruct f as [|f]; [simpl in Hf; lia|].
    rewrite processInput_empty by reflexivity.
    eexists. split; [reflexivity|]. right.
    destruct (fields_log_if (key_eqb nonce (js "0")) (utf8_decode P) s)
      as (E1 & E2 & E3 & E4 & E5 & E6).
    cbn [settlements waiters missingData outputBuffer unprocessedBuffers runningStatus
         done_waiter next_id stderrChunks stdin set_outputBuffer set_missingData
         set_waiters settle].
    unfold set_outputBuffer, set_missingData, set_waiters, settle. cbn.
    rewrite settlements_log_if.
    repeat split; try assumption; try reflexivity; discriminate.
  - assert (HQ : (List.length Q < List.length P)%nat)
      by (rewrite HP, length_app; simpl; lia).
    rewrite (processInput_partial f s [] nonce _ (js "0") Q (Z.of_nat (List.length P)) HB
               index_of_separator_0 Hn Hd no_colon_0)
      by (try assumption; try reflexivity; simpl; lia).
    eexists. split; [reflexivity|]. left. split; [discriminate|reflexivity].
Qed.

Lemma concat_app_single : forall (U : list bytes) c,
  List.concat (U ++ [c]) = List.concat U ++ c.
Proof. intros. rewrite concat_app. simpl. rewrite app_nil_r. reflexivity. Qed.

Lemma stdout_pending : forall f s nonce P Q c R w,
  outputBuffer s ++ List.concat (unprocessedBuffers s)
  = frame_header nonce (js "0") (Z.of_nat (List.length P)) ++ Q ->
  missingData s = Some (Z.of_nat (List.length P) - Z.of_nat (List.length Q)) ->
  P = Q ++ c ++ R ->
  no_colon nonce -> Z.of_nat (List.length P) < 2 ^ 53 ->
  (List.length (frame_header nonce (js "0") (Z.of_nat (List.length P)) ++ P) < f)%nat ->
  map_get nonce (waiters s) = Some w ->
  exists s', on_stdout f c s = Done s'
  /\ ((R <> []
       /\ outputBuffer s' ++ List.concat (unprocessedBuffers s')
          = frame_header nonce (js "0") (Z.of_nat (List.length P)) ++ Q ++ c
       /\ missingData s' = Some (Z.of_nat (List.length P) - Z.of_nat (List.length (Q ++ c)))
       /\ waiters s' = waiters s /\ settlements s' = settlements s)
      \/ (R = []
          /\ settlements s' = settlements s ++ [Resolve w (Some P)]
          /\ waiters s' = map_delete nonce (waiters s)
          /\ missingData s' = None)).
Proof.
  intros f s nonce P Q c R w HB Hm HP Hn HP53 Hf Hg.
  set (H := frame_header nonce (js "0") (Z.of_nat (List.length P))) in *.
  assert (Hproc : forall s1,
            outputBuffer s1 = H ++ Q ++ c -> waiters s1 = waiters s ->
            settlements s1 = settlements s -> unprocessedBuffers s1 = [] ->
            exists s', processInput f s1 = Done s'
            /\ ((R <> []
                 /\ outputBuffer s' ++ List.concat (unprocessedBuffers s') = H ++ Q ++ c
                 /\ missingData s' = Some (Z.of_nat (List.length P)
                                           - Z.of_nat (List.length (Q ++ c)))
                 /\ waiters s' = waiters s /\ settlements s' = settlements s)
                \/ (R = []
                    /\ settlements s' = settlements s ++ [Resolve w (Some P)]
                    /\ waiters s' = map_delete nonce (waiters s)
                    /\ missingData s' = None))).
  { intros s1 E1 E2 E3 E4.
    destruct (process_prefix f s1 nonce P (Q ++ c) R w E1
                ltac:(rewrite HP, app_assoc; reflexivity) Hn HP53 Hf
                ltac:(rewrite E2; exact Hg))
      as (s' & Hs' & [[HR ->]|(HR & S1 & W1 & M1 & _)]).
    - exists (set_missingData (Some (Z.of_nat (List.length P)
                                    - Z.of_nat (List.length (Q ++ c)))) s1).
      split; [exact Hs'|]. left. split; [exact HR|].
      unfold set_missingData; cbn. rewrite E1, E4, E2, E3. simpl.
      rewrite app_nil_r. repeat split.
    - exists s'. split; [exact Hs'|]. right.
      rewrite S1, W1, E2, E3. repeat split; assumption. }
  unfold on_stdout.
  destruct (index_of c separator) as [i|] eqn:Ec.
  - cbv beta zeta iota.
    apply Hproc; unfold set_unprocessed, set_outputBuffer; cbn; try reflexivity.
    rewrite concat_app_single, app_assoc, HB, <- app_assoc. reflexivity.
  - cbv beta zeta iota.
    unfold set_missingData, set_unprocessed; cbn [missingData option_map].
    rewrite Hm. cbn [option_map].
    assert (HL : List.length P = (List.length Q + List.length c + List.length R)%nat)
      by (rewrite HP, !length_app; lia).
    destruct R as [|r R].
    + replace (0 <? Z.of_nat (List.length P) - Z.of_nat (List.length Q)
                    - Z.of_nat (List.length c)) with false
        by (symmetry; apply Z.ltb_ge; simpl in HL; lia).
      apply Hproc; cbn; try reflexivity.
      rewrite concat_app_single, app_assoc, HB, <- app_assoc. reflexivity.
    + replace (0 <? Z.of_nat (List.length P) - Z.of_nat (List.length Q)
                    - Z.of_nat (List.length c)) with true
        by (symmetry; apply Z.ltb_lt; simpl in HL; lia).
      eexists. split; [reflexivity|]. left. split; [discriminate|]. cbn.
      rewrite concat_app_single, app_assoc, HB, <- app_assoc.
      split; [reflexivity|]. split; [|split; reflexivity].
      rewrite length_app. f_equal. lia.
Qed.

Lemma stdout_empty_chunks : forall f cs s,
  List.concat cs = [] -> missingData s = None ->
  exists s', run f s (map EvStdout cs) = Done s'
  /\ settlements s' = settlements s /\ waiters s' = waiters s.
Proof.
  intros f cs. induction cs as [|c cs IH]; intros s Hc Hm.
  - exists s. repeat split.
  - simpl in Hc. apply app_eq_nil in Hc. destruct Hc as [-> Hc].
    simpl. unfold on_stdout. cbv beta zeta iota.
    unfold set_missingData, set_unprocessed; cbn [missingData option_map index_of
      index_of_from is_prefix]. cbn. rewrite Hm.
    destruct (IH (set_missingData None (set_unprocessed (unprocessedBuffers s ++ [[]]) s))
                Hc eq_refl) as (s' & R & S & W).
    exists s'. split; [exact R|]. split; [exact S|exact W].
Qed.

Lemma pending_run : forall f cs s nonce P Q w,
  outputBuffer s ++ List.concat (unprocessedBuffers s)
  = frame_header nonce (js "0") (Z.of_nat (List.length P)) ++ Q ->
  missingData s = Some (Z.of_nat (List.length P) - Z.of_nat (List.length Q)) ->
  P = Q ++ List.concat cs ->
  (List.length Q < List.length P)%nat ->
  no_colon nonce -> Z.of_nat (List.length P) < 2 ^ 53 ->
  (List.length (frame_header nonce (js "0") (Z.of_nat (List.length P)) ++ P) < f)%nat ->
  map_get nonce (waiters s) = Some w ->
  exists s', run f s (map EvStdout cs) = Done s'
  /\ settlements s' = settlements s ++ [Resolve w (Some P)]
  /\ waiters s' = map_delete nonce (waiters s).
Proof.
  intros f cs. induction cs as [|c cs IH]; intros s nonce P Q w HB Hm HP HQ Hn HP53 Hf Hg.
  - simpl in HP. rewrite app_nil_r in HP. subst. lia.
  - simpl in HP.
    destruct (stdout_pending f s nonce P Q c (List.concat cs) w HB Hm HP Hn HP53 Hf Hg)
      as (s1 & R1 & [(HR & B1 & M1 & W1 & S1)|(HR & S1 & W1 & M1)]).
    + assert (HQ' : (List.length (Q ++ c) < List.length P)%nat).
      { rewrite HP, !length_app. destruct (List.concat cs) as [|x l]; [contradiction|].
        simpl. lia. }
      destruct (IH s1 nonce P (Q ++ c) w B1 M1 ltac:(rewrite HP, app_assoc; reflexivity)
                   HQ' Hn HP53 Hf ltac:(rewrite W1; exact Hg))
        as (s' & R & S & W).
      exists s'. simpl. rewrite R1. split; [exact R|].
      rewrite S, S1, W, W1. split; reflexivity.
    + destruct (stdout_empty_chunks f cs s1 HR M1) as (s' & R & S & W).
      exists s'. simpl. rewrite R1. split; [exact R|]. rewrite S, W. split; assumption.
Qed.

Lemma idle_first_chunk : forall f s nonce P Q R w,
  outputBuffer s = [] -> unprocessedBuffers s = [] ->
  P = Q ++ R ->
  no_colon nonce -> Z.of_nat (List.length P) < 2 ^ 53 ->
  (List.length (frame_header nonce (js "0") (Z.of_nat (List.length P)) ++ P) < f)%nat ->
  map_get nonce (waiters s) = Some w ->
  exists s', on_stdout f (frame_header nonce (js "0") (Z.of_nat (List.length P)) ++ Q) s
             = Done s'
  /\ ((R <> []
       /\ outputBuffer s' ++ List.concat (unprocessedBuffers s')
          = frame_header nonce (js "0") (Z.of_nat (List.length P)) ++ Q
       /\ missingData s' = Some (Z.of_nat (List.length P) - Z.of_nat (List.length Q))
       /\ waiters s' = waiters s /\ settlements s' = settlements s)
      \/ (R = []
          /\ settlements s' = settlements s ++ [Resolve w (Some P)]
          /\ waiters s' = map_delete nonce (waiters s)
          /\ missingData s' = None)).
Proof.
  intros f s nonce P Q R w HO HU HP Hn HP53 Hf Hg.
  set (H := frame_header nonce (js "0") (Z.of_nat (List.length P))) in *.
  assert (Hi : index_of (H ++ Q) separator = Some 0%nat).
  { unfold H. rewrite header_shape. apply index_of_app. exact index_of_separator_0. }
  unfold on_stdout. rewrite Hi. cbv beta zeta iota.
  set (s1 := set_unprocessed []
               (set_outputBuffer
                  (List.concat
                     (outputBuffer (set_unprocessed (unprocessedBuffers s ++ [H ++ Q]) s)
                      :: unprocessedBuffers
                           (set_unprocessed (unprocessedBuffers s ++ [H ++ Q]) s)))
                  (set_unprocessed (unprocessedBuffers s ++ [H ++ Q]) s))).
  assert (E1 : outputBuffer s1 = H ++ Q).
  { unfold s1, set_unprocessed, set_outputBuffer. cbn. rewrite HO, HU. simpl.
    rewrite app_nil_r. reflexivity. }
  destruct (process_prefix f s1 nonce P Q R w E1 HP Hn HP53 Hf ltac:(exact Hg))
    as (s' & Hs' & [[HR ->]|(HR & S1 & W1 & M1 & _)]).
  - eexists. split; [exact Hs'|]. left. split; [exact HR|].
    unfold s1, set_missingData, set_unprocessed, set_outputBuffer. cbn.
    rewrite HO, HU. simpl. rewrite !app_nil_r. repeat split.
  - exists s'. split; [exact Hs'|]. right. split; [exact HR|].
    rewrite S1, W1. repeat split; assumption.
Qed.

Lemma pending_run_prefix : forall f cs s nonce P Q R w,
  outputBuffer s ++ List.concat (unprocessedBuffers s)
  = frame_header nonce (js "0") (Z.of_nat (List.length P)) ++ Q ->
  missingData s = Some (Z.of_nat (List.length P) - Z.of_nat (List.length Q)) ->
  P = Q ++ List.concat cs ++ R -> R <> [] ->
  no_colon nonce -> Z.of_nat (List.length P) < 2 ^ 53 ->
  (List.length (frame_header nonce (js "0") (Z.of_nat (List.length P)) ++ P) < f)%nat ->
  map_get nonce (waiters s) = Some w ->
  exists s', run f s (map EvStdout cs) = Done s'
  /\ settlements s' = settlements s /\ waiters s' = waiters s.
Proof.
  intros f cs. induction cs as [|c cs IH]; intros s nonce P Q R w HB Hm HP HR Hn HP53 Hf Hg.
  - exists s. repeat split.
  - simpl in HP. rewrite <- app_assoc in HP.
    destruct (stdout_pending f s nonce P Q c (List.concat cs ++ R) w HB Hm HP Hn HP53 Hf Hg)
      as (s1 & R1 & [(_ & B1 & M1 & W1 & S1)|(HR' & _)]).
    + destruct (IH s1 nonce P (Q ++ c) R w B1 M1
                   ltac:(rewrite HP, <- app_assoc; reflexivity) HR Hn HP53 Hf
                   ltac:(rewrite W1; exact Hg))
        as (s' & R2 & S2 & W2).
      exists s'. simpl. rewrite R1. split; [exact R2|]. rewrite S2, W2. split; assumption.
    + apply app_eq_nil in HR'. destruct HR'. contradiction.
Qed.

(** A success frame whose header comes in one chunk, together with the
    first bytes [P0] of its payload, and whose remaining payload comes in
    any number of further chunks [cs], reaching an idle parser: the waiter
    of its nonce is not settled while payload bytes are missing, and is
    resolved with the whole payload, once, when the last chunk arrives. *)
Theorem split_payload_resolves_whole : forall f st nonce P0 cs w,
  outputBuffer st = [] -> unprocessedBuffers st = [] ->
  no_colon nonce ->
  Z.of_nat (List.length (P0 ++ List.concat cs)) < 2 ^ 53 ->
  (List.length (frame_header nonce (js "0") (Z.of_nat (List.length (P0 ++ List.concat cs)))
                ++ P0 ++ List.concat cs) < f)%nat ->
  map_get nonce (waiters st) = Some w ->
  let first := frame_header nonce (js "0") (Z.of_nat (List.length (P0 ++ List.concat cs)))
               ++ P0 in
  (exists st', run f st (EvStdout first :: map EvStdout cs) = Done st'
     /\ settlements st' = settlements st ++ [Resolve w (Some (P0 ++ List.concat cs))]
     /\ waiters st' = map_delete nonce (waiters st))
  /\ (forall k, (List.length (P0 ++ List.concat (firstn k cs))
                 < List.length (P0 ++ List.concat cs))%nat ->
      exists sk, run f st (EvStdout first :: map EvStdout (firstn k cs)) = Done sk
      /\ settlements sk = settlements st /\ waiters sk = waiters st).
Proof.
  intros f st nonce P0 cs w HO HU Hn HP53 Hf Hg first.
  set (P := P0 ++ List.concat cs) in *.
  split.
  - destruct (idle_first_chunk f st nonce P P0 (List.concat cs) w HO HU eq_refl Hn HP53 Hf Hg)
      as (s1 & R1 & [(HR & B1 & M1 & W1 & S1)|(HR & S1 & W1 & M1)]).
    + assert (HQ : (List.length P0 < List.length P)%nat).
      { unfold P. rewrite length_app. destruct (List.concat cs); [contradiction|simpl; lia]. }
      destruct (pending_run f cs s1 nonce P P0 w B1 M1 eq_refl HQ Hn HP53 Hf
                  ltac:(rewrite W1; exact Hg)) as (s' & R2 & S2 & W2).
      exists s'. simpl. unfold first. rewrite R1. split; [exact R2|].
      rewrite S2, W2, S1, W1. split; reflexivity.
    + destruct (stdout_empty_chunks f cs s1 HR M1) as (s' & R2 & S2 & W2).
      exists s'. simpl. unfold first. rewrite R1. split; [exact R2|].
      rewrite S2, W2. split; assumption.
  - intros k Hk.
    assert (HPk : P = P0 ++ List.concat (firstn k cs) ++ List.concat (skipn k cs))
      by (unfold P; rewrite <- concat_app, firstn_skipn; reflexivity).
    assert (HR : List.concat (skipn k cs) <> []).
    { intros E. rewrite HPk, E, app_nil_r in Hk. lia. }
    destruct (idle_first_chunk f st nonce P P0
                (List.concat (firstn k cs) ++ List.concat (skipn k cs)) w HO HU HPk
                Hn HP53 Hf Hg)
      as (s1 & R1 & [(_ & B1 & M1 & W1 & S1)|(HR' & _)]).
    + destruct (pending_run_prefix f (firstn k cs) s1 nonce P P0 (List.concat (skipn k cs)) w
                  B1 M1 HPk HR Hn HP53 Hf ltac:(rewrite W1; exact Hg))
        as (s' & R2 & S2 & W2).
      exists s'. simpl. unfold first. rewrite R1. split; [exact R2|].
      rewrite S2, W2. split; assumption.
    + apply app_eq_nil in HR'. destruct HR'. contradiction.
Qed.

Lemma no_colon_abc : no_colon (js "abc").
Proof. intros d Hd. simpl in Hd. unfold colon. lia. Qed.

Lemma split_payload_resolves_whole_witness :
  let st := one_request (js "abc") in
  let cs := [js "o"; js "o"] in
  let first := frame_header (js "abc") (js "0")
                 (Z.of_nat (List.length (js "f" ++ List.concat cs))) ++ js "f" in
  (exists st', run 60 st (EvStdout first :: map EvStdout cs) = Done st'
     /\ settlements st' = settlements st ++ [Resolve (PCmd 0) (Some (js "f" ++ List.concat cs))]
     /\ waiters st' = map_delete (js "abc") (waiters st))
  /\ (forall k, (List.length (js "f" ++ List.concat (firstn k cs))
                 < List.length (js "f" ++ List.concat cs))%nat ->
      exists sk, run 60 st (EvStdout first :: map EvStdout (firstn k cs)) = Done sk
      /\ settlements sk = settlements st /\ waiters sk = waiters st).
Proof.
  intros st cs first.
  apply (split_payload_resolves_whole 60 st (js "abc") (js "f") cs (PCmd 0));
    try reflexivity; try exact no_colon_abc; simpl; lia.
Defined.

Definition frame_ok (x : bytes * status_type * bytes) : Prop :=
  let '(nonce, _, payload) := x in
  no_colon nonce /\ Z.of_nat (List.length payload) < 2 ^ 53.

Lemma onMessage_set_outputBuffer : forall ty n d b st,
  onMessage ty n d (set_outputBuffer b st)
  = match onMessage ty n d st with Done s => Done (set_outputBuffer b s) | o => o end.
Proof.
  intros ty n d b st. unfold onMessage.
  destruct (key_eqb n (js "0")); cbn [waiters set_outputBuffer log_verbose];
    destruct (map_has n (waiters st)); try reflexivity;
    destruct (map_get n (waiters st)); try reflexivity;
    destruct ty; try destruct (error_frame_message d); reflexivity.
Qed.

Lemma set_outputBuffer_missing_None : forall rest b s,
  missingData s = None ->
  set_outputBuffer rest (set_missingData None (set_outputBuffer b s)) = set_outputBuffer rest s.
Proof. intros rest b [] H. simpl in H. subst. reflexivity. Qed.

Lemma status_bytes_type : forall ty,
  status_type_of (js_Number (status_bytes ty)) = Some ty /\ no_colon (status_bytes ty)
  /\ List.length (status_bytes ty) = 1%nat.
Proof.
  intros []; split; try reflexivity; split; try reflexivity;
    intros d [<-|[]]; discriminate.
Qed.

Lemma processInput_frames : forall fs f st,
  Forall frame_ok fs -> missingData st = None ->
  (List.length (List.concat (map frame_of fs)) < f)%nat ->
  processInput f (set_outputBuffer (List.concat (map frame_of fs)) st)
  = onMessage_each fs (set_outputBuffer [] st).
Proof.
  induction fs as [|[[nonce ty] P] fs IH]; intros f st Hok Hm Hf.
  - destruct f as [|f]; [simpl in Hf; lia|]. apply processInput_empty. reflexivity.
  - inversion Hok as [|x l Hx Hok']; subst. destruct Hx as [Hn HP].
    destruct f as [|f]; [lia|].
    destruct (status_bytes_type ty) as (Hty & Hsc & Hsl).
    cbn [map List.concat frame_of] in Hf |- *.
    rewrite length_app, frame_header_app, length_app, length_frame_header in Hf.
    assert (HB : outputBuffer (set_outputBuffer (frame nonce (status_bytes ty) P
                                 ++ List.concat (map frame_of fs)) st)
                 = [] ++ separator ++ nonce ++ [colon]
                   ++ decimal_string (Z.of_nat (List.length P)) ++ [colon]
                   ++ status_bytes ty ++ [colon] ++ P ++ List.concat (map frame_of fs))
      by (unfold set_outputBuffer; cbn [outputBuffer]; unfold frame;
          repeat rewrite <- app_assoc; reflexivity).
    rewrite (processInput_frame f _ [] nonce _ _ P _ ty HB index_of_separator_0 Hn
               (no_colon_digits _ (decimal_string_digits (Z.of_nat (List.length P)) ltac:(lia))) Hsc)
      by (try lia; try exact Hty; apply js_Number_decimal_string; lia).
    rewrite !onMessage_set_outputBuffer. cbn [onMessage_each].
    rewrite onMessage_set_outputBuffer.
    destruct (onMessage ty nonce P st) as [s1| |] eqn:E; try reflexivity.
    destruct (onMessage_effect _ _ _ _ _ E) as (_ & _ & _ & _ & _ & _ & M1 & _).
    rewrite set_outputBuffer_missing_None by congruence.
    apply IH; [exact Hok'|congruence|lia].
Qed.

Lemma index_of_frames : forall x fs,
  index_of (List.concat (map frame_of (x :: fs))) separator = Some 0%nat.
Proof.
  intros [[nonce ty] P] fs. cbn [map List.concat frame_of].
  rewrite <- (app_nil_l (frame _ _ _ ++ _)), frame_shape.
  apply index_of_app. exact index_of_separator_0.
Qed.

Lemma on_stdout_whole_frames : forall f st fs,
  outputBuffer st = [] -> unprocessedBuffers st = [] -> missingData st = None ->
  fs <> [] -> Forall frame_ok fs ->
  (List.length (List.concat (map frame_of fs)) < f)%nat ->
  on_stdout f (List.concat (map frame_of fs)) st = onMessage_each fs st.
Proof.
  intros f st fs HO HU HM Hne Hok Hf.
  destruct fs as [|x fs]; [contradiction|].
  unfold on_stdout. rewrite index_of_frames. cbv beta zeta iota.
  set (C := List.concat (map frame_of (x :: fs))).
  match goal with
  | |- processInput _ ?s = _ => replace s with (set_outputBuffer C st)
  end.
  - unfold C. rewrite processInput_frames by assumption.
    f_equal. destruct st; simpl in *; subst; reflexivity.
  - destruct st; simpl in *; subst. unfold set_outputBuffer, set_unprocessed. simpl.
    rewrite app_nil_r. reflexivity.
Qed.

Lemma onMessage_unknown : forall ty n d st,
  map_get n (waiters st) = None -> key_eqb n (js "0") = false ->
  onMessage ty n d st = Done st.
Proof.
  intros ty n d st Hg Hz. unfold onMessage. rewrite Hz, map_has_get, Hg. reflexivity.
Qed.

Lemma key_eqb_refl : forall k, key_eqb k k = true.
Proof. intros k. unfold key_eqb. destruct (list_eq_dec Z.eq_dec k k); congruence. Qed.

Lemma map_get_set_same : forall k v m, map_get k (map_set k v m) = Some v.
Proof.
  intros k v m. induction m as [|[k' v'] m IH]; simpl.
  - rewrite key_eqb_refl. reflexivity.
  - destruct (key_eqb k k') eqn:E; simpl; rewrite E; [reflexivity|exact IH].
Qed.

Lemma map_delete_set_same : forall k v m, map_delete k (map_set k v m) = map_delete k m.
Proof.
  intros k v m. induction m as [|[k' v'] m IH]; simpl.
  - rewrite key_eqb_refl. reflexivity.
  - destruct (key_eqb k k') eqn:E; simpl; rewrite E; [reflexivity|rewrite IH; reflexivity].
Qed.

Lemma map_delete_absent : forall k m, map_get k m = None -> map_delete k m = m.
Proof.
  intros k m. induction m as [|[k' v'] m IH]; simpl; intros H; [reflexivity|].
  destruct (key_eqb k k'); [discriminate|]. rewrite IH by exact H. reflexivity.
Qed.

Lemma success_frame_single : forall nonce P,
  success_frame nonce P = List.concat (map frame_of [(nonce, StatusSuccess, P)]).
Proof. intros. simpl. rewrite app_nil_r. reflexivity. Qed.

(** A stdout chunk made of whole frames, reaching a parser that holds no
    bytes and waits for none, has the effect of calling [onMessage] on
    each frame in turn, in order. *)
Theorem stdout_frames_dispatched_in_order : forall f st fs,
  outputBuffer st = [] -> unprocessedBuffers st = [] -> missingData st = None ->
  fs <> [] -> Forall frame_ok fs ->
  (List.length (List.concat (map frame_of fs)) < f)%nat ->
  on_stdout f (List.concat (map frame_of fs)) st = onMessage_each fs st.
Proof. exact on_stdout_whole_frames. Qed.

(** Frames whose nonces have no waiter (and are not "0"), arriving as one
    chunk of whole frames at an idle parser (no bytes held, none queued, no
    shortfall pending), are dropped: the stdout handler leaves the state as
    it was, whatever their status and payload, an error payload that is not
    JSON included. *)
Theorem stdout_unknown_frames_dropped : forall f st fs,
  outputBuffer st = [] -> unprocessedBuffers st = [] -> missingData st = None ->
  fs <> [] -> Forall frame_ok fs ->
  Forall (fun x => let '(n, _, _) := x in
                   map_get n (waiters st) = None /\ key_eqb n (js "0") = false) fs ->
  (List.length (List.concat (map frame_of fs)) < f)%nat ->
  on_stdout f (List.concat (map frame_of fs)) st = Done st.
Proof.
  intros f st fs HO HU HM Hne Hok Hunk Hf.
  rewrite on_stdout_whole_frames by assumption.
  clear Hne Hok Hf. induction Hunk as [|[[n ty] P] fs [Hg Hz] _ IH]; [reflexivity|].
  cbn [onMessage_each]. rewrite onMessage_unknown by assumption. exact IH.
Qed.

Lemma stdout_unknown_frames_dropped_witness :
  let st := one_request (js "abc") in
  let fs := [(js "zzz", StatusError, js "not json"); (js "q", StatusSuccess, js "")] in
  on_stdout 80 (List.concat (map frame_of fs)) st = Done st.
Proof.
  intros st fs.
  apply stdout_unknown_frames_dropped; try reflexivity.
  - discriminate.
  - repeat constructor; try (intros d Hd; simpl in Hd; unfold colon; lia).
  - repeat constructor.
  - simpl. lia.
Defined.

Lemma stdout_frames_dispatched_in_order_witness :
  let st := one_request (js "abc") in
  let fs := [(js "abc", StatusSuccess, js "foo"); (js "abc", StatusSuccess, js "bar")] in
  on_stdout 80 (List.concat (map frame_of fs)) st = onMessage_each fs st.
Proof.
  intros st fs.
  apply stdout_frames_dispatched_in_order; try reflexivity.
  - discriminate.
  - repeat constructor; try (intros d Hd; simpl in Hd; unfold colon; lia).
  - simpl. lia.
Defined.

(** Round trip: while the compositor runs and the parser is idle, the
    promise [executeCommand] returns for a nonce not in use is resolved
    with exactly the payload of the success frame that comes back for
    that nonce; the request line was written once and the waiter map is
    as before. *)
Theorem execute_then_frame_resolves : forall f st command params nonce P,
  runningStatus st = Running ->
  outputBuffer st = [] -> unprocessedBuffers st = [] -> missingData st = None ->
  no_colon nonce -> Z.of_nat (List.length P) < 2 ^ 53 ->
  (List.length (success_frame nonce P) < f)%nat ->
  map_get nonce (waiters st) = None ->
  exists p st2,
    fst (executeCommand command params nonce st) = Returns p
    /\ on_stdout f (success_frame nonce P) (snd (executeCommand command params nonce st))
       = Done st2
    /\ settlements st2 = settlements st ++ [Resolve p (Some P)]
    /\ waiters st2 = waiters st
    /\ stdin st2 = stdin st ++ [Request nonce command params].
Proof.
  intros f st command params nonce P Hr HO HU HM Hn HP Hf Hg.
  unfold executeCommand. rewrite Hr. cbn [fresh_id fst snd].
  set (st1 := set_waiters _ _).
  exists (PCmd (next_id st)).
  rewrite success_frame_single in Hf |- *.
  rewrite on_stdout_whole_frames by
    (try reflexivity; try assumption; try discriminate;
     repeat constructor; assumption).
  cbn [onMessage_each].
  assert (Hg1 : map_get nonce (waiters st1) = Some (PCmd (next_id st)))
    by apply map_get_set_same.
  rewrite (onMessage_registered StatusSuccess nonce P st1 _ Hg1). cbv beta iota zeta.
  eexists. split; [reflexivity|]. split; [reflexivity|].
  destruct (fields_log_if (key_eqb nonce (js "0")) (utf8_decode P) st1)
    as (_ & _ & _ & _ & _ & E6).
  unfold set_waiters at 1, settle. cbn [settlements waiters stdin].
  rewrite settlements_log_if, E6.
  unfold st1. cbn.
  rewrite map_delete_set_same, map_delete_absent by exact Hg.
  repeat split.
Qed.

Lemma execute_then_frame_resolves_witness :
  exists p st2,
    fst (executeCommand (js "ExtractFrame") (JObj []) (js "abc") initial_state) = Returns p
    /\ on_stdout 60 (success_frame (js "abc") (js "foo"))
         (snd (executeCommand (js "ExtractFrame") (JObj []) (js "abc") initial_state))
       = Done st2
    /\ settlements st2 = settlements initial_state ++ [Resolve p (Some (js "foo"))]
    /\ waiters st2 = waiters initial_state
    /\ stdin st2 = stdin initial_state ++ [Request (js "abc") (js "ExtractFrame") (JObj [])].
Proof.
  apply execute_then_frame_resolves; try reflexivity; try exact no_colon_abc; simpl; lia.
Defined.

Lemma on_stdout_noise : forall f n s,
  index_of n separator = None -> missingData s = None ->
  on_stdout f n s = Done (set_missingData None (set_unprocessed (unprocessedBuffers s ++ [n]) s)).
Proof.
  intros f n s Hn Hm. unfold on_stdout. rewrite Hn. cbv zeta.
  unfold set_missingData, set_unprocessed. cbn -[processInput]. rewrite Hm. reflexivity.
Qed.

Lemma noise_chunks_queued : forall f ns s,
  Forall (fun n => index_of n separator = None) ns ->
  missingData s = None ->
  exists s', run f s (map EvStdout ns) = Done s'
  /\ outputBuffer s' = outputBuffer s
  /\ unprocessedBuffers s' = unprocessedBuffers s ++ ns
  /\ missingData s' = None
  /\ waiters s' = waiters s /\ settlements s' = settlements s.
Proof.
  intros f ns. induction ns as [|n ns IH]; intros s Hns Hm.
  - exists s. rewrite app_nil_r. repeat split; assumption.
  - inversion Hns as [|x l Hn Hns']; subst.
    simpl. rewrite (on_stdout_noise f n s Hn Hm).
    destruct (IH (set_missingData None (set_unprocessed (unprocessedBuffers s ++ [n]) s))
                Hns' eq_refl) as (s' & R & B & U & M & W & S).
    exists s'. split; [exact R|]. rewrite B, U, W, S. cbn.
    rewrite <- app_assoc. repeat split; assumption.
Qed.
(** Stray stdout output ahead of a frame is skipped: chunks without the
    marker reaching an idle parser are only queued, and when a chunk with
    a success frame follows, the frame is found after them and its waiter
    is resolved with the payload; the stray bytes are dropped. *)
Theorem noise_before_frame_skipped : forall f st ns nonce P w,
  outputBuffer st = [] -> unprocessedBuffers st = [] -> missingData st = None ->
  Forall (fun n => index_of n separator = None) ns ->
  index_of (List.concat ns ++ separator) separator = Some (List.length (List.concat ns)) ->
  no_colon nonce -> Z.of_nat (List.length P) < 2 ^ 53 ->
  (List.length (List.concat ns ++ success_frame nonce P) < f)%nat ->
  map_get nonce (waiters st) = Some w ->
  exists st', run f st (map EvStdout ns ++ [EvStdout (success_frame nonce P)]) = Done st'
  /\ settlements st' = settlements st ++ [Resolve w (Some P)]
  /\ waiters st' = map_delete nonce (waiters st)
  /\ outputBuffer st' = [] /\ unprocessedBuffers st' = [].
Proof.
  intros f st ns nonce P w HO HU HM Hns Hidx Hn HP Hf Hg.
  destruct (noise_chunks_queued f ns st Hns HM) as (s1 & R1 & B1 & U1 & M1 & W1 & S1).
  assert (Hrun : forall evs1 evs2 s,
             run f s (evs1 ++ evs2)
             = match run f s evs1 with Done s' => run f s' evs2 | o => o end).
  { induction evs1 as [|e evs1 IH]; intros evs2 s; simpl; [reflexivity|].
    destruct (step f s e); [apply IH|reflexivity|reflexivity]. }
  rewrite Hrun, R1. cbn [run step].
  assert (Hi : index_of (success_frame nonce P) separator = Some 0%nat).
  { rewrite success_frame_single. apply index_of_frames. }
  unfold on_stdout. rewrite Hi. cbv zeta iota.
  match goal with |- context [processInput f ?s] => remember s as s2 eqn:Es2 end.
  assert (HB : outputBuffer s2
               = List.concat ns ++ separator ++ nonce ++ [colon]
                 ++ decimal_string (Z.of_nat (List.length P)) ++ [colon]
                 ++ js "0" ++ [colon] ++ P ++ []).
  { subst s2. unfold set_unprocessed, set_outputBuffer.
    cbn [outputBuffer unprocessedBuffers]. rewrite B1, U1, HO, HU.
    cbn [app List.concat]. rewrite concat_app. cbn [List.concat].
    unfold success_frame, frame. rewrite !app_nil_r.
    repeat rewrite <- app_assoc. reflexivity. }
  assert (Hg2 : map_get nonce (waiters s2) = Some w)
    by (subst s2; unfold set_unprocessed, set_outputBuffer; cbn [waiters]; rewrite W1; exact Hg).
  assert (Hlen : (List.length (List.concat ns) + 16 + List.length nonce + 1
                  + List.length (decimal_string (Z.of_nat (List.length P))) + 1 + 1 + 1
                  + List.length P < f)%nat).
  { unfold success_frame in Hf. rewrite frame_header_app in Hf.
    rewrite !length_app, length_frame_header in Hf. simpl in Hf. lia. }
  destruct f as [|f]; [lia|].
  assert (Hd : no_colon (decimal_string (Z.of_nat (List.length P))))
    by (apply no_colon_digits, decimal_string_digits; lia).
  rewrite (processInput_frame f s2 (List.concat ns) nonce _ (js "0") P [] StatusSuccess HB
             Hidx Hn Hd no_colon_0);
    [| simpl; lia | simpl; lia | simpl; lia
     | apply js_Number_decimal_string; lia | reflexivity].
  rewrite (onMessage_registered StatusSuccess _ P _ w Hg2). cbv beta iota zeta.
  destruct f as [|f]; [lia|].
  rewrite processInput_empty by reflexivity.
  eexists. split; [reflexivity|].
  unfold set_outputBuffer at 1, set_missingData, set_waiters, settle.
  cbn [settlements waiters outputBuffer unprocessedBuffers].
  rewrite settlements_log_if.
  destruct (fields_log_if (key_eqb nonce (js "0")) (utf8_decode P) s2) as (E1 & _).
  rewrite E1. subst s2. cbn. rewrite W1, S1. repeat split.
Qed.

Lemma noise_before_frame_skipped_witness :
  let st := one_request (js "abc") in
  let ns := [js "warn"; js "ing"] in
  exists st', run 80 st (map EvStdout ns ++ [EvStdout (success_frame (js "abc") (js "f"))])
              = Done st'
  /\ settlements st' = settlements st ++ [Resolve (PCmd 0) (Some (js "f"))]
  /\ waiters st' = map_delete (js "abc") (waiters st)
  /\ outputBuffer st' = [] /\ unprocessedBuffers st' = [].
Proof.
  intros st ns.
  apply (noise_before_frame_skipped 80 st ns (js "abc") (js "f") (PCmd 0));
    try reflexivity; try exact no_colon_abc;
    try (repeat constructor; reflexivity); simpl; lia.
Defined.

(** More free memory never gives fewer frame cache items. *)
Theorem frame_cache_items_monotone : forall m1 m2,
  m1 <= m2 ->
  getIdealMaximumFrameCacheItems m1 <= getIdealMaximumFrameCacheItems m2.
Proof.
  intros m1 m2 H. unfold getIdealMaximumFrameCacheItems.
  pose proof (Z.div_le_mono m1 m2 (1024 * 1024 * 6) ltac:(lia) H). lia.
Qed.

Lemma frame_cache_items_monotone_witness :
  (6291456 * 700 <= 6291456 * 900)
  /\ getIdealMaximumFrameCacheItems (6291456 * 700)
     <= getIdealMaximumFrameCacheItems (6291456 * 900).
Proof.
  split; [lia|]. apply frame_cache_items_monotone. lia.
Defined.

(** The cache size is 500 when free memory holds fewer than 501 frames of
    6 MiB, 2000 when it holds at least 2000 of them, and the number of
    whole 6 MiB frames that fit in between. *)
Theorem frame_cache_items_saturate : forall freeMemory,
  (freeMemory < 501 * (1024 * 1024 * 6) -> getIdealMaximumFrameCacheItems freeMemory = 500)
  /\ (2000 * (1024 * 1024 * 6) <= freeMemory -> getIdealMaximumFrameCacheItems freeMemory = 2000)
  /\ (500 * (1024 * 1024 * 6) <= freeMemory < 2001 * (1024 * 1024 * 6) ->
      getIdealMaximumFrameCacheItems freeMemory = freeMemory / (1024 * 1024 * 6)).
Proof.
  intros m. unfold getIdealMaximumFrameCacheItems. cbv zeta.
  repeat split; intros H.
  - assert (m / (1024 * 1024 * 6) <= 500).
    { apply Z.lt_succ_r, Z.div_lt_upper_bound; lia. }
    lia.
  - assert (2000 <= m / (1024 * 1024 * 6)) by (apply Z.div_le_lower_bound; lia). lia.
  - assert (500 <= m / (1024 * 1024 * 6)) by (apply Z.div_le_lower_bound; lia).
    assert (m / (1024 * 1024 * 6) <= 2000).
    { apply Z.lt_succ_r, Z.div_lt_upper_bound; lia. }
    lia.
Qed.

Lemma frame_cache_items_saturate_witness :
  getIdealMaximumFrameCacheItems 0 = 500
  /\ getIdealMaximumFrameCacheItems (16 * 1024 * 1024 * 1024 * 1024) = 2000
  /\ getIdealMaximumFrameCacheItems (6291456 * 1234 + 5) = 1234.
Proof.
  destruct (frame_cache_items_saturate 0) as [A _].
  destruct (frame_cache_items_saturate (16 * 1024 * 1024 * 1024 * 1024)) as [_ [B _]].
  destruct (frame_cache_items_saturate (6291456 * 1234 + 5)) as [_ [_ C]].
  split; [apply A; lia|]. split; [apply B; lia|].
  rewrite C by lia. reflexivity.
Defined.

Lemma takes_values_incl : forall m L m' L',
  takes m L m' L' -> incl (map_values m') (map_values m).
Proof.
  intros m L m' L' H. induction H as [m L|m L n w s m' L' Hg Hs T IH].
  - apply incl_refl.
  - intros x Hx. apply (Permutation_in _ (Permutation_sym (map_delete_perm n m w Hg))).
    right. exact (IH x Hx).
Qed.

Lemma waiters_cmd_step : forall f st ev st',
  waiters_cmd st -> step f st ev = Done st' -> waiters_cmd st'.
Proof.
  intros f st ev st' I H.
  destruct ev as [d|d|k|c ps n| |]; simpl in H.
  - destruct (on_stdout_parser_effect _ _ _ _ H) as (_ & _ & _ & _ & T).
    intros p Hp. apply I. exact (takes_values_incl _ _ _ _ T p Hp).
  - injection H as <-. exact I.
  - injection H as <-. intros p Hp.
    rewrite (proj1 (proj2 (on_close_fields k st))) in Hp. destruct Hp.
  - injection H as <-. unfold executeCommand.
    destruct (runningStatus st); simpl; try exact I.
    intros p Hp. destruct (map_set_in _ _ _ _ Hp) as [E|E].
    + exists (next_id st). exact E.
    + apply I. exact E.
  - injection H as <-. unfold waitForDone; simpl.
    destruct (runningStatus st); exact I.
  - injection H as <-. unfold finishCommands.
    destruct (runningStatus st); exact I.
Qed.

Lemma waiters_cmd_run : forall f evs st st',
  waiters_cmd st -> run f st evs = Done st' -> waiters_cmd st'.
Proof.
  intros f evs. induction evs as [|ev evs IH]; intros st st' I H.
  - simpl in H. injection H as <-. exact I.
  - simpl in H. destruct (step f st ev) as [st1| |] eqn:Hs; try discriminate.
    exact (IH st1 st' (waiters_cmd_step f st ev st1 I Hs) H).
Qed.

Lemma map_get_in_values : forall k m v,
  map_get k m = Some v -> In v (map_values m).
Proof.
  intros k m v H. induction m as [|[k' v'] m IH]; simpl in H |- *; [discriminate|].
  destruct (key_eqb k k'); [left; congruence|right; exact (IH H)].
Qed.

Lemma map_set_replace_perm : forall k m v p,
  map_get k m = Some v ->
  Permutation (v :: map_values (map_set k p m)) (p :: map_values m).
Proof.
  intros k m v p. induction m as [|[k' v'] m IH]; intros H; simpl in H |- *; [discriminate|].
  destruct (key_eqb k k'); simpl.
  - injection H as <-. apply perm_swap.
  - rewrite perm_swap. rewrite (IH H). apply perm_swap.
Qed.

(** Reusing a nonce: when [executeCommand] is called while an earlier
    command under the same nonce is still waiting (from a state reached
    from the initial one), [waiters.set] replaces the earlier promise by the
    new one, and the earlier promise is never settled afterwards, whatever
    happens next. *)
Theorem nonce_collision_orphans_earlier : forall f evs st nonce q c ps p st1 evs' st2,
  run f initial_state evs = Done st ->
  map_get nonce (waiters st) = Some q ->
  executeCommand c ps nonce st = (Returns p, st1) ->
  run f st1 evs' = Done st2 ->
  map_get nonce (waiters st1) = Some p
  /\ ~ In q (map settled_promise (settlements st2))
  /\ done_waiter st2 <> Some q.
Proof.
  intros f evs st nonce q c ps p st1 evs' st2 R Hg He R2.
  pose proof (reachable_inv_run f evs initial_state st reachable_inv_initial R) as [IA [IB IC]].
  assert (Wc : waiters_cmd st)
    by (apply (waiters_cmd_run f evs initial_state st); [intros x []|exact R]).
  destruct (Wc q (map_get_in_values _ _ _ Hg)) as [n ->].
  assert (Hq : In (PCmd n) (command_promises st))
    by (unfold command_promises; apply in_or_app; right; exact (map_get_in_values _ _ _ Hg)).
  pose proof (IB _ Hq) as Hn. simpl in Hn.
  unfold executeCommand in He.
  destruct (runningStatus st) eqn:Hr; try discriminate.
  simpl in He. injection He as <- <-.
  assert (Hne : PCmd n <> PCmd (next_id st)) by (intros E; injection E; lia).
  split; [apply map_get_set_same|].
  assert (O : orphaned (PCmd n)
                (set_waiters (map_set nonce (PCmd (next_id st)) (waiters st))
                   (write_stdin (Request nonce c ps) (snd (fresh_id st))))).
  { unfold orphaned, set_waiters, write_stdin, fresh_id, command_promises.
    cbn [snd waiters settlements next_id done_waiter promise_id]. split; [lia|]. split.
    - intros Hin.
      pose proof (IA n) as Hc. unfold command_promises in Hc.
      assert (P : Permutation
                    (map settled_promise (settlements st)
                       ++ PCmd n :: map_values (map_set nonce (PCmd (next_id st)) (waiters st)))
                    (PCmd (next_id st) :: map settled_promise (settlements st)
                       ++ map_values (waiters st))).
      { rewrite (map_set_replace_perm _ _ _ (PCmd (next_id st)) Hg).
        symmetry. apply Permutation_middle. }
      apply (Permutation_count_occ promise_eq_dec) with (x := PCmd n) in P.
      rewrite !count_occ_app in Hc. rewrite !count_occ_app in P. cbn [count_occ] in P.
      rewrite !count_occ_app in P.
      destruct (promise_eq_dec (PCmd n) (PCmd n)) as [_|C]; [|congruence].
      destruct (promise_eq_dec (PCmd (next_id st)) (PCmd n)) as [E|_]; [congruence|].
      apply in_app_or in Hin. destruct Hin as [Hin|Hin].
      + apply (count_occ_In promise_eq_dec) in Hin. lia.
      + apply (count_occ_In promise_eq_dec) in Hin. lia.
    - intros E. destruct (IC _ E) as [k [Ek _]]. discriminate. }
  pose proof (orphaned_run f evs' _ st2 (PCmd n) O R2) as [_ [Hin Hd]].
  split; [|exact Hd].
  intros H. apply Hin. unfold command_promises. apply in_or_app. left. exact H.
Qed.

Lemma nonce_collision_orphans_earlier_witness :
  let st := one_request (js "abc") in
  let r := executeCommand (js "ExtractFrame") (JObj []) (js "abc") st in
  let evs' := [EvStdout (success_frame (js "abc") (js "x")); EvClose (Some 0)] in
  let st2 := match run 60 (snd r) evs' with Done s => s | _ => initial_state end in
  run 60 initial_state [EvExecute (js "ExtractFrame") (JObj []) (js "abc")] = Done st
  /\ map_get (js "abc") (waiters st) = Some (PCmd 0)
  /\ r = (Returns (PCmd 1), snd r)
  /\ run 60 (snd r) evs' = Done st2
  /\ map_get (js "abc") (waiters (snd r)) = Some (PCmd 1)
  /\ ~ In (PCmd 0) (map settled_promise (settlements st2))
  /\ done_waiter st2 <> Some (PCmd 0).
Proof.
  intros st r evs' st2.
  assert (R : run 60 initial_state [EvExecute (js "ExtractFrame") (JObj []) (js "abc")] = Done st)
    by reflexivity.
  assert (G : map_get (js "abc") (waiters st) = Some (PCmd 0)) by reflexivity.
  assert (E : r = (Returns (PCmd 1), snd r)) by reflexivity.
  assert (R2 : run 60 (snd r) evs' = Done st2) by (vm_compute; reflexivity).
  split; [exact R|]. split; [exact G|]. split; [exact E|]. split; [exact R2|].
  exact (nonce_collision_orphans_earlier 60 _ st (js "abc") (PCmd 0) _ _ (PCmd 1) (snd r)
           evs' st2 R G E R2).
Defined.

Lemma step_stderr : forall f st ev st',
  step f st ev = Done st' -> stderrChunks st' = stderrChunks st ++ stderr_of [ev].
Proof.
  intros f st ev st' H. destruct ev as [d|d|k|c ps n| |]; simpl in H |- *.
  - destruct (on_stdout_parser_effect _ _ _ _ H) as (_ & _ & _ & E & _).
    rewrite E, app_nil_r. reflexivity.
  - injection H as <-. reflexivity.
  - injection H as <-. rewrite app_nil_r. unfold on_close.
    destruct k as [[|p|p]|]; cbv zeta;
      repeat match goal with
      | |- context [match done_waiter ?s with _ => _ end] => destruct (done_waiter s)
      end; unfold set_waiters, set_runningStatus, settle; cbn;
      rewrite ?(proj2 (proj2 (proj2 (proj2 (reject_all_fields _ _ _))))); reflexivity.
  - injection H as <-. rewrite app_nil_r. unfold executeCommand.
    destruct (runningStatus st); reflexivity.
  - injection H as <-. rewrite app_nil_r. unfold waitForDone. simpl.
    destruct (runningStatus st); reflexivity.
  - injection H as <-. rewrite app_nil_r. unfold finishCommands.
    destruct (runningStatus st); reflexivity.
Qed.

(** Every stderr chunk is kept: along any run, the stderr chunks received
    are appended, in order, to those already collected, and no other
    event (stdout data, the close event, the public calls) adds or drops
    any. *)
Theorem stderr_chunks_accumulate : forall f evs st st',
  run f st evs = Done st' -> stderrChunks st' = stderrChunks st ++ stderr_of evs.
Proof.
  intros f evs. induction evs as [|ev evs IH]; intros st st' H.
  - simpl in H. injection H as <-. rewrite app_nil_r. reflexivity.
  - simpl in H. destruct (step f st ev) as [st1| |] eqn:Hs; try discriminate.
    assert (E : stderr_of (ev :: evs) = stderr_of [ev] ++ stderr_of evs)
      by (unfold stderr_of; simpl; rewrite app_nil_r; reflexivity).
    rewrite (IH st1 st' H), (step_stderr f st ev st1 Hs), E, <- app_assoc. reflexivity.
Qed.

Lemma stderr_chunks_accumulate_witness :
  let evs := [EvStderr (js "pan"); EvStdout (js "noise"); EvStderr (js "ic")] in
  run 20 initial_state evs = Done (match run 20 initial_state evs with Done s => s | _ => initial_state end)
  /\ stderrChunks (match run 20 initial_state evs with Done s => s | _ => initial_state end)
     = stderrChunks initial_state ++ stderr_of evs.
Proof.
  intros evs. split; [vm_compute; reflexivity|].
  apply (stderr_chunks_accumulate 20 evs). vm_compute. reflexivity.
Defined.

(** The message of a crash: when the child exits with a code other than 0
    (or is killed), the status stored is [QuitWithError] with the UTF-8
    decoding of the concatenation of all stderr chunks received since the
    start, in order. *)
Theorem crash_status_carries_all_stderr : forall f evs st code,
  run f initial_state evs = Done st -> code <> Some 0 ->
  runningStatus (on_close code st)
  = QuitWithError (utf8_decode (List.concat (stderr_of evs))).
Proof.
  intros f evs st code R Hc.
  rewrite (proj1 (on_close_fields code st)).
  unfold status_after_close.
  rewrite (stderr_chunks_accumulate f evs initial_state st R). destruct code as [[|p|p]|]; try reflexivity.
  contradiction.
Qed.

Lemma crash_status_carries_all_stderr_witness :
  let evs := [EvStderr (js "pan"); EvStdout (js "noise"); EvStderr (js "ic")] in
  let st := match run 20 initial_state evs with Done s => s | _ => initial_state end in
  run 20 initial_state evs = Done st /\ Some 1 <> Some 0
  /\ runningStatus (on_close (Some 1) st) = QuitWithError (utf8_decode (js "panic")).
Proof.
  intros evs st.
  assert (R : run 20 initial_state evs = Done st) by (vm_compute; reflexivity).
  split; [exact R|]. split; [discriminate|].
  exact (crash_status_carries_all_stderr 20 evs st (Some 1) R ltac:(discriminate)).
Defined.

(** [finishCommands] after the close event: through any later events
    (the close event fires once), it throws synchronously, with
    "Compositor already quit" after exit code 0 and "Compositor already
    quit: " followed by the collected stderr otherwise, and writes nothing
    to the child's stdin. *)
Theorem finishCommands_after_close : forall f code st evs st2,
  no_close evs = true ->
  run f (on_close code st) evs = Done st2 ->
  finishCommands st2
  = (Throws (match code with
             | Some 0 => js "Compositor already quit"
             | _ => js "Compositor already quit: "
                    ++ utf8_decode (List.concat (stderrChunks st))
             end), st2).
Proof.
  intros f code st evs st2 Hn H.
  destruct (on_close_fields code st) as (R & W & _).
  destruct (quit_run f evs (on_close code st) st2
              ltac:(rewrite R; apply status_after_close_not_running) W Hn H)
    as (R2 & _).
  unfold finishCommands. rewrite R2, R.
  destruct code as [[|p|p]|]; reflexivity.
Qed.

Lemma finishCommands_after_close_witness :
  let st := one_request (js "abc") in
  let evs := [EvStdout (js "late"); EvExecute (js "ExtractFrame") (JObj []) (js "def")] in
  let st2 := match run 20 (on_close (Some 0) st) evs with Done s => s | _ => initial_state end in
  no_close evs = true /\ run 20 (on_close (Some 0) st) evs = Done st2
  /\ finishCommands st2 = (Throws (js "Compositor already quit"), st2).
Proof.
  intros st evs st2.
  assert (R : run 20 (on_close (Some 0) st) evs = Done st2) by (vm_compute; reflexivity).
  split; [reflexivity|]. split; [exact R|].
  exact (finishCommands_after_close 20 (Some 0) st evs st2 eq_refl R).
Defined.

Lemma takes_prefix : forall m L m' L',
  takes m L m' L' -> exists l, L' = L ++ l.
Proof.
  intros m L m' L' H. induction H as [m L|m L n w s m' L' Hg Hs T IH].
  - exists []. rewrite app_nil_r. reflexivity.
  - destruct IH as [l E]. exists (s :: l). rewrite E, <- app_assoc. reflexivity.
Qed.

(** Whatever bytes arrive on stdout, the handler only settles promises
    that were waiting in the map, each once, removing it from the map:
    the promises it settles, together with the waiters left, are exactly
    the waiters before.  It leaves the running status, the completion
    handle and the collected stderr alone. *)
Theorem stdout_settles_only_waiters : forall f d st st',
  on_stdout f d st = Done st' ->
  exists L, settlements st' = settlements st ++ L
  /\ Permutation (map settled_promise L ++ map_values (waiters st'))
                 (map_values (waiters st))
  /\ runningStatus st' = runningStatus st /\ done_waiter st' = done_waiter st
  /\ stderrChunks st' = stderrChunks st.
Proof.
  intros f d st st' H.
  destruct (on_stdout_parser_effect f d st st' H) as (E1 & E2 & _ & E4 & T).
  destruct (takes_prefix _ _ _ _ T) as [L EL].
  exists L. split; [exact EL|]. split; [|repeat split; assumption].
  pose proof (takes_perm _ _ _ _ T) as P. rewrite EL, map_app, <- app_assoc in P.
  symmetry. exact (Permutation_app_inv_l _ _ _ P).
Qed.

Lemma stdout_settles_only_waiters_witness :
  let st := one_request (js "abc") in
  let d := success_frame (js "abc") (js "ok") ++ error_frame (js "zzz") (js "x") in
  let st' := match on_stdout 60 d st with Done s => s | _ => initial_state end in
  on_stdout 60 d st = Done st'
  /\ exists L, settlements st' = settlements st ++ L
     /\ Permutation (map settled_promise L ++ map_values (waiters st'))
                    (map_values (waiters st))
     /\ runningStatus st' = runningStatus st /\ done_waiter st' = done_waiter st
     /\ stderrChunks st' = stderrChunks st.
Proof.
  intros st d st'.
  assert (R : on_stdout 60 d st = Done st') by (vm_compute; reflexivity).
  split; [exact R|]. exact (stdout_settles_only_waiters 60 d st st' R).
Defined.


